(** * c4model-cli: order-preserving reconciliation of C4 diagrams

    A shallow embedding of [src/ordering.js] and of the document helpers of
    [src/c4tool.js] ([sortDiagram], [prepareYaml], [removeEmptyElements]),
    with the properties of the reconciliation core stated and proved over it.

    A parsed YAML document is a tree of JavaScript values.  The model covers
    the JSON fragment of what [yaml.load] produces: [null], booleans,
    integers, strings, sequences and mappings.  A JavaScript string is a
    sequence of code units; the model writes them as [string]. *)

From Stdlib Require Import ZArith Lia Ascii String Sorted.
From stdpp Require Import base option list strings gmap pretty.

Set Warnings "-register-all".

Local Open Scope string_scope.
Local Open Scope list_scope.
Local Open Scope Z_scope.

(** ** JavaScript strings *)

Module JsString.

(** [s.startsWith(p)], used to spell out [indexOf]. *)
Fixpoint starts_with (p s : string) : bool :=
  match p, s with
  | EmptyString, _ => true
  | String a p', String b s' => if Ascii.eqb a b then starts_with p' s' else false
  | String _ _, EmptyString => false
  end.

(** [String.prototype.indexOf(p)] scanning from offset [i]: the first
    position at which [p] occurs, [-1] when there is none. *)
Fixpoint indexOf_from (p s : string) (i : Z) : Z :=
  if starts_with p s then i
  else match s with
       | EmptyString => -1
       | String _ s' => indexOf_from p s' (i + 1)
       end.

Definition indexOf (s p : string) : Z := indexOf_from p s 0.

(** [s.substring(n)] for [0 <= n]: the code units from offset [n] on. *)
Fixpoint drop (n : nat) (s : string) : string :=
  match n, s with
  | O, _ => s
  | S n', String _ s' => drop n' s'
  | S _, EmptyString => EmptyString
  end.

Definition substring (s : string) (n : Z) : string := drop (Z.to_nat n) s.

(** [s] contains [p]: some split of [s] has [p] in the middle. *)
Definition occurs (p s : string) : Prop :=
  exists pre post, s = pre +:+ p +:+ post.

End JsString.

(** ** Marker Normalizer: [prepareYaml] (c4tool.js) *)

Definition marker : string := "---".

Definition newline : string := String (ascii_of_nat 10) EmptyString.

(** [sepLoc >= 0 ? yamlString.substring(sepLoc) : `---\n${yamlString}`] *)
Definition prepareYaml (yamlString : string) : string :=
  let sepLoc := JsString.indexOf yamlString marker in
  if 0 <=? sepLoc then JsString.substring yamlString sepLoc
  else marker +:+ newline +:+ yamlString.

(** ** Outcomes: a value, or a thrown exception *)

Inductive exn := TypeError | AssertionError.

Inductive result (A : Type) :=
| Ok (a : A)
| Throw (e : exn).
Arguments Ok {A} a.
Arguments Throw {A} e.

#[global] Instance result_ret : MRet result := fun _ a => Ok a.
#[global] Instance result_bind : MBind result := fun _ _ f r =>
  match r with Ok a => f a | Throw e => Throw e end.

(** [xs.map(f)] where [f] may throw: the first exception ends the walk. *)
Fixpoint mapR {A B : Type} (f : A -> result B) (xs : list A) : result (list B) :=
  match xs with
  | [] => Ok []
  | x :: xs' => y ← f x; ys ← mapR f xs'; Ok (y :: ys)
  end.

(** ** Document trees *)

Inductive value :=
| VNull
| VBool (b : bool)
| VNum (n : Z)
| VStr (s : string)
| VArr (items : list value)
| VObj (fields : list (string * value)).

(** Own property of a mapping: the fields are kept in [Object.keys] order and
    hold each key once. *)
Fixpoint own (fields : list (string * value)) (k : string) : option value :=
  match fields with
  | [] => None
  | (k', v) :: rest => if String.eqb k' k then Some v else own rest k
  end.

(** The property names every plain object inherits from [Object.prototype]. *)
Definition object_prototype_keys : list string :=
  [ "constructor"; "__defineGetter__"; "__defineSetter__"; "hasOwnProperty";
    "__lookupGetter__"; "__lookupSetter__"; "isPrototypeOf";
    "propertyIsEnumerable"; "toString"; "valueOf"; "__proto__";
    "toLocaleString" ].

Definition inherited (k : string) : bool :=
  existsb (String.eqb k) object_prototype_keys.

(** The string form of the value an inherited name denotes: the source text
    of a built-in function, and for [__proto__] that of [Object.prototype]
    itself. *)
Definition inherited_text (k : string) : string :=
  if String.eqb k "__proto__" then "[object Object]"
  else if String.eqb k "constructor" then "function Object() { [native code] }"
  else "function " +:+ k +:+ "() { [native code] }".

(** What [item[prop]] evaluates to. *)
Inductive property :=
| Undefined
| Own (v : value)
| Inherited (text : string).

(** [item[prop]].  Reading a property of [null] throws.  A mapping answers
    with its own field, else with what [Object.prototype] defines.  For the
    other values the model covers the names that no prototype defines (the
    program reads [name], [source], [destination], [containers]) and answers
    [undefined]; indices, [length] and methods of strings and arrays are not
    modelled. *)
Definition get (item : value) (prop : string) : result property :=
  match item with
  | VNull => Throw TypeError
  | VObj fields =>
      match own fields prop with
      | Some v => Ok (Own v)
      | None => Ok (if inherited prop then Inherited (inherited_text prop) else Undefined)
      end
  | _ => Ok Undefined
  end.

(** [ToString]; [xs.join(sep)] on strings is [String.concat sep xs].  A
    mapping that shadows [toString] with a YAML value has no
    primitive form and throws; a sequence joins its items with a comma,
    [null] items giving empty segments. *)
Fixpoint ToString (v : value) : result string :=
  match v with
  | VNull => Ok "null"
  | VBool b => Ok (if b then "true" else "false")
  | VNum n => Ok (pretty n)
  | VStr s => Ok s
  | VArr items =>
      segs ← (fix each (l : list value) : result (list string) :=
                match l with
                | [] => Ok []
                | x :: l' =>
                    s ← match x with VNull => Ok "" | _ => ToString x end;
                    ss ← each l'; Ok (s :: ss)
                end) items;
      Ok (String.concat "," segs)
  | VObj fields =>
      match own fields "toString" with
      | Some _ => Throw TypeError
      | None => Ok "[object Object]"
      end
  end.

(** The segment [Array.prototype.join] writes for one entry: nothing for
    [undefined] and [null], the string form otherwise. *)
Definition segment (p : property) : result string :=
  match p with
  | Undefined => Ok ""
  | Own VNull => Ok ""
  | Own v => ToString v
  | Inherited text => Ok text
  end.

(** [s.replace(pat, by)] with a one-character string pattern: only the first
    occurrence is replaced. *)
Fixpoint replace_first (pat : ascii) (by_ : string) (s : string) : string :=
  match s with
  | EmptyString => EmptyString
  | String c s' => if Ascii.eqb c pat then by_ +:+ s' else String c (replace_first pat by_ s')
  end.

Definition space : ascii := ascii_of_nat 32.

(** ** Key Extractor: [sortKey] (ordering.js)

    [props.map((prop) => item[prop]).join('.').replace(' ', '_')] *)
Definition sortKey (item : value) (props : list string) : result string :=
  values ← mapR (get item) props;
  segs ← mapR segment values;
  Ok (replace_first space "_" (String.concat "." segs)).

(** ** Order table

    The table is the plain object [{}] that [ordering] fills: its own
    properties are a finite map from key to index.  Assigning to the name
    [__proto__] reaches the setter of [Object.prototype], which ignores a
    number, so that key never becomes an own property. *)
Definition assign (acc : gmap string Z) (k : string) (index : Z) : gmap string Z :=
  if String.eqb k "__proto__" then acc else <[k := index]> acc.

(** The [reduce] of [ordering], from [index] on:
    [acc[sortKey(item, props)] = index; return acc]. *)
Fixpoint ordering_reduce (nodes : list value) (props : list string)
    (index : Z) (acc : gmap string Z) : result (gmap string Z) :=
  match nodes with
  | [] => Ok acc
  | item :: rest =>
      k ← sortKey item props;
      ordering_reduce rest props (index + 1) (assign acc k index)
  end.

(** ** Comparator: [orderApply] (ordering.js) *)

(** What [aPos] holds: a number (an index of the table, or its size), or a
    value read through the prototype chain, which compares by its text. *)
Inductive position :=
| Num (n : Z)
| Text (s : string).

(** [(aKey in order) ? order[aKey] : length]: [in] also answers for the
    names inherited from [Object.prototype]. *)
Definition position_of (order : gmap string Z) (k : string) : position :=
  let length := Z.of_nat (size order) in
  match order !! k with
  | Some i => Num i
  | None => if inherited k then Text (inherited_text k) else Num length
  end.

(** [aPos < bPos]: numbers by value, two texts by code units; a text against
    a number is a comparison with [NaN], which is false. *)
Definition js_lt (a b : position) : bool :=
  match a, b with
  | Num x, Num y => x <? y
  | Text x, Text y => String.ltb x y
  | _, _ => false
  end.

Definition orderApply (a b : value) (order : gmap string Z) (props : list string)
    : result Z :=
  aKey ← sortKey a props;
  bKey ← sortKey b props;
  let aPos := position_of order aKey in
  let bPos := position_of order bKey in
  if js_lt aPos bPos then Ok (-1)
  else if js_lt bPos aPos then Ok 1
  else Ok 0.

(** ** [Array.prototype.sort]

    The language requires the sort to be stable and leaves the algorithm to
    the engine.  For a comparator that orders the items consistently every
    stable sort returns the same array; the model computes it by insertion,
    right to left.  An exception thrown by the comparator ends the sort. *)
Fixpoint sort_insert {A : Type} (cmp : A -> A -> result Z) (x : A) (sorted : list A)
    : result (list A) :=
  match sorted with
  | [] => Ok [x]
  | y :: rest =>
      c ← cmp x y;
      if c <=? 0 then Ok (x :: y :: rest)
      else r ← sort_insert cmp x rest; Ok (y :: r)
  end.

Fixpoint array_sort {A : Type} (cmp : A -> A -> result Z) (xs : list A)
    : result (list A) :=
  match xs with
  | [] => Ok []
  | x :: rest => sorted ← array_sort cmp rest; sort_insert cmp x sorted
  end.

(** ** Reorderer: the sort of one collection under one table,
    [collection.sort((a, b) => orderApply(a, b, order, props))] *)
Definition reorder (collection : list value) (order : gmap string Z)
    (props : list string) : result (list value) :=
  array_sort (fun a b => orderApply a b order props) collection.

(** ** Path Selector *)

(** A node of a tree is referred to by the child numbers on the way from the
    root to it: the items of a sequence and the fields of a mapping are
    numbered from 0 in [Object.keys] order. *)
Definition loc := list nat.

Definition node : Type := loc * value.

Definition kids (v : value) : list value :=
  match v with
  | VArr items => items
  | VObj fields => fields.*2
  | _ => []
  end.

Definition children (at_ : loc) (v : value) : list node :=
  imap (fun i x => (at_ ++ [i], x)) (kids v).

(** The child number of the own field [k]. *)
Fixpoint field_index (fields : list (string * value)) (k : string) : option nat :=
  match fields with
  | [] => None
  | (k', _) :: rest =>
      if String.eqb k' k then Some 0%nat else S <$> field_index rest k
  end.

(** [value[k]] as a node, when [value] is a mapping that has [k]. *)
Definition member (k : string) (at_ : loc) (v : value) : list node :=
  match v with
  | VObj fields =>
      match field_index fields k, own fields k with
      | Some i, Some x => [(at_ ++ [i], x)]
      | _, _ => []
      end
  | _ => []
  end.

(** The expressions of the two filters the program writes. *)
Inductive filter_expr :=
| HasContainers                        (* @.containers *)
| HasContainersNamed (lit : string).   (* @.containers && @.name=="lit" *)

(** The components of a path expression after the root [$]. *)
Inductive component :=
| Descendant (f : string)   (* ..f *)
| Child (f : string)        (* .f *)
| Wildcard                  (* [*] *)
| Filter (e : filter_expr). (* [?(e)] *)

Definition truthy (v : value) : bool :=
  match v with
  | VNull => false
  | VBool b => b
  | VNum n => negb (n =? 0)
  | VStr s => negb (String.eqb s "")
  | VArr _ | VObj _ => true
  end.

(** Modelled from the spec: the Path Selector is the [jsonpath] package, which
    is not among the sources.  Section 4.1 asks for recursive descent on a
    field name, the wildcard over the items of a sequence, and filters on a
    field's value, and for an empty result when nothing matches.  [descend f]
    lists, for every mapping met on the way down, its field [f] before what
    lies below its fields; a sequence is walked item by item. *)
Fixpoint descend (f : string) (at_ : loc) (v : value) {struct v} : list node :=
  match v with
  | VArr items =>
      (fix each (l : list value) (i : nat) {struct l} : list node :=
         match l with
         | [] => []
         | x :: l' => descend f (at_ ++ [i]) x ++ each l' (S i)
         end) items 0%nat
  | VObj fields =>
      member f at_ v ++
      (fix each (l : list (string * value)) (i : nat) {struct l} : list node :=
         match l with
         | [] => []
         | (_, x) :: l' => descend f (at_ ++ [i]) x ++ each l' (S i)
         end) fields 0%nat
  | _ => []
  end.

Section Runtime.

(** [ToNumber] of a string, as far as the model needs it: [Some n] when the
    string converts to the integer [n], [None] otherwise.  The conversion
    belongs to the language runtime and is taken as given. *)
Variable StringToNumber : string -> option Z.

(** [x == "lit"], the loose comparison of a property with a string literal. *)
Definition loose_eq_string (x : property) (lit : string) : bool :=
  match x with
  | Undefined | Own VNull => false
  | Own (VStr s) => String.eqb s lit
  | Own (VNum n) =>
      match StringToNumber lit with Some m => n =? m | None => false end
  | Own (VBool b) =>
      match StringToNumber lit with
      | Some m => (if b then 1 else 0) =? m
      | None => false
      end
  | Own v => match ToString v with Ok s => String.eqb s lit | Throw _ => false end
  | Inherited text => String.eqb text lit
  end.

(** Modelled from the spec: a filter keeps the children for which its
    expression is truthy; an expression that throws keeps nothing.  The
    literal of [HasContainersNamed] is the string itself: the program pastes
    the name between double quotes into the expression text, which denotes
    that string when the name holds no double quote, backslash or line
    break and does not close the filter. *)
Definition passes (e : filter_expr) (item : value) : bool :=
  match get item "containers" with
  | Ok (Own c) =>
      truthy c &&
      match e with
      | HasContainers => true
      | HasContainersNamed lit =>
          match get item "name" with
          | Ok x => loose_eq_string x lit
          | Throw _ => false
          end
      end
  | _ => false
  end.

(** Modelled from the spec: what one component of a path selects from a
    node: the fields of that name at any depth, the field of that name, every
    child, or the children a filter keeps. *)
Definition select (c : component) (partial : node) : list node :=
  let '(at_, v) := partial in
  match c with
  | Descendant f => descend f at_ v
  | Child f => member f at_ v
  | Wildcard => children at_ v
  | Filter e => filter (fun n => passes e n.2 = true) (children at_ v)
  end.

(** Modelled from the spec: the walk along a path from the root: each
    component is applied to every node the components before it selected,
    and the matches are kept in document order. *)
Definition walk (obj : value) (path : list component) : list node :=
  fold_left (fun partials c => partials ≫= select c) path [([], obj)].

(** Modelled from the spec: [jp.nodes(obj, path)].  The package refuses an
    [obj] that is not an object. *)
Definition nodes (obj : value) (path : list component) : result (list node) :=
  match obj with
  | VArr _ | VObj _ => Ok (walk obj path)
  | _ => Throw AssertionError
  end.

(** ** Order Table Builder: [ordering] (ordering.js) *)
Definition ordering (item : value) (path : list component) (props : list string)
    : result (gmap string Z) :=
  selected ← nodes item path;
  ordering_reduce (selected.*2) props 0 ∅.

(** ** The two trees of a reconciliation

    [yaml.load] builds a tree of its own for each of the two texts, so the
    trees share no node.  [sort] is handed the two roots and mutates what it
    reaches through them; the model keeps both trees in a store and names
    the root an operation goes through. *)
Inductive root := Initial | Actual.

Record store := Store { initial : value; actual : value }.

Definition read (st : store) (r : root) : value :=
  match r with Initial => initial st | Actual => actual st end.

Definition write (st : store) (r : root) (v : value) : store :=
  match r with
  | Initial => Store v (actual st)
  | Actual => Store (initial st) v
  end.

(** The node a reference points to. *)
Fixpoint lookup_at (l : loc) (v : value) : option value :=
  match l with
  | [] => Some v
  | i :: l' => kids v !! i ≫= lookup_at l'
  end.

(** Assignment through a reference: the tree with the node at [l] replaced. *)
Fixpoint update_at (l : loc) (f : value -> value) (v : value) : value :=
  match l with
  | [] => f v
  | i :: l' =>
      match v with
      | VArr items => VArr (alter (update_at l' f) i items)
      | VObj fields => VObj (alter (fun kv => (kv.1, update_at l' f kv.2)) i fields)
      | _ => v
      end
  end.

(** The sort run on numbered items, to tell where each item went. *)
Definition sort_tracked {A : Type} (cmp : A -> A -> result Z) (xs : list A)
    : result (list (nat * A)) :=
  array_sort (fun a b => cmp a.2 b.2) (imap pair xs).

Fixpoint strip (p r : loc) : option loc :=
  match p, r with
  | [], _ => Some r
  | i :: p', j :: r' => if Nat.eqb i j then strip p' r' else None
  | _ :: _, [] => None
  end.

Fixpoint index_of (i : nat) (l : list nat) : option nat :=
  match l with
  | [] => None
  | j :: l' => if Nat.eqb i j then Some 0%nat else S <$> index_of i l'
  end.

(** A sort moves the items of the array at [at_]; a reference to a node
    inside item [i] keeps pointing to that node, which now sits in the slot
    [j] that item [i] moved to ([moved] lists the old number of each slot). *)
Definition relocate (at_ : loc) (moved : list nat) (r : loc) : loc :=
  match strip at_ r with
  | Some (i :: rest) =>
      match index_of i moved with
      | Some j => at_ ++ j :: rest
      | None => r
      end
  | _ => r
  end.

(** [refs.forEach(body)] over references into a tree that [body] mutates:
    [follow] tells where the sorts so far have moved a referenced node. *)
Fixpoint forEach (body : loc -> store -> result (store * (loc -> loc)))
    (refs : list loc) (follow : loc -> loc) (st : store) : result store :=
  match refs with
  | [] => Ok st
  | r :: rest =>
      step ← body (follow r) st;
      forEach body rest (fun q => step.2 (follow q)) step.1
  end.

(** ** [sort] (ordering.js)

    [jp.query(actual, actualJsonPath).forEach((element) => {
       const order = ordering(initial, initialJsonPath(element), props);
       element[actualProperty].sort((a, b) => orderApply(a, b, order, props)); })]

    [element[actualProperty]] has a [sort] method only when it is a
    sequence; on anything else the call throws. *)
Definition sort (actual : root) (actualJsonPath : list component)
    (actualProperty : string) (initial : root)
    (initialJsonPath : value -> result (list component)) (props : list string)
    (st : store) : result store :=
  targets ← nodes (read st actual) actualJsonPath;
  forEach (fun r st =>
    match lookup_at r (read st actual) with
    | None => Ok (st, id)
    | Some element =>
        path ← initialJsonPath element;
        order ← ordering (read st initial) path props;
        match element with
        | VObj fields =>
            match field_index fields actualProperty, own fields actualProperty with
            | Some i, Some (VArr items) =>
                moved ← sort_tracked (fun a b => orderApply a b order props) items;
                let at_ := r ++ [i] in
                Ok (write st actual
                      (update_at at_ (fun _ => VArr (moved.*2)) (read st actual)),
                    relocate at_ (moved.*1))
            | _, _ => Throw TypeError
            end
        | _ => Throw TypeError
        end
    end) (targets.*1) id st.

(** The text [`${x}`] pastes. *)
Definition template (x : property) : result string :=
  match x with
  | Undefined => Ok "undefined"
  | Own v => ToString v
  | Inherited text => Ok text
  end.

(** ** Document Normalizer: [sortDiagram] (c4tool.js), on the two parsed
    trees; the result is the tree handed to [yaml.dump]. *)
Definition sortDiagram_passes (st : store) : result store :=
  st ← sort Actual [] "elements"
         Initial (fun _ => Ok [Descendant "elements"; Wildcard])
         ["name"] st;
  st ← sort Actual [] "relationships"
         Initial (fun _ => Ok [Descendant "relationships"; Wildcard])
         ["source"; "destination"] st;
  sort Actual [Descendant "elements"; Filter HasContainers] "containers"
       Initial (fun element =>
                  name ← get element "name";
                  lit ← template name;
                  Ok [Descendant "elements"; Filter (HasContainersNamed lit);
                      Child "containers"; Wildcard])
       ["name"] st.

Definition sortDiagram (initialDiagram actualDiagram : value) : result value :=
  st ← sortDiagram_passes (Store initialDiagram actualDiagram);
  Ok (read st Actual).

End Runtime.

(** ** Empty-Value Pruner: [removeEmptyElements] (c4tool.js)

    [for (var k in obj)] walks the keys the object had when the loop began
    and leaves out a key that no longer exists when its turn comes: after a
    [splice] the items behind the removed one move down by one and the last
    index disappears.  The function calls itself on children and, after
    removing the last item of a sequence, on the sequence again; [fuel]
    bounds the depth of these calls. *)

(** [obj[k] === null || obj[k] === ''] *)
Definition is_empty (v : value) : bool :=
  match v with
  | VNull => true
  | VStr s => String.eqb s ""
  | _ => false
  end.

(** [typeof v == "object"] for a [v] that is not [null] *)
Definition is_object (v : value) : bool :=
  match v with
  | VArr _ | VObj _ => true
  | _ => false
  end.

(** The loop over the fields of a mapping: [delete obj[k]] removes the
    field, a child is pruned in place by [self]. *)
Fixpoint prune_fields (self : value -> option value) (fields : list (string * value))
    : option (list (string * value)) :=
  match fields with
  | [] => Some []
  | (k, v) :: rest =>
      if is_empty v then prune_fields self rest
      else
        v' ← (if is_object v then self v else Some v);
        rest' ← prune_fields self rest;
        Some ((k, v') :: rest')
  end.

(** The loop over the indices [ks] a sequence had when the loop began, on
    the sequence [cur] as it is now: [obj.splice(k, 1)] removes item [k];
    when that leaves [obj.length == k], the function runs on the sequence
    again. *)
Fixpoint prune_items (self : value -> option value) (ks : list nat) (cur : list value)
    : option (list value) :=
  match ks with
  | [] => Some cur
  | k :: ks' =>
      match cur !! k with
      | None => prune_items self ks' cur
      | Some v =>
          cur ← (if is_empty v then Some (delete k cur)
                 else if is_object v
                      then v' ← self v; Some (<[k := v']> cur)
                      else Some cur);
          cur ← (if Nat.eqb (length cur) k
                 then match self (VArr cur) with
                      | Some (VArr again) => Some again
                      | _ => None
                      end
                 else Some cur);
          prune_items self ks' cur
      end
  end.

Fixpoint prune (fuel : nat) (obj : value) : option value :=
  match fuel with
  | O => None
  | S fuel' =>
      match obj with
      | VObj fields => VObj <$> prune_fields (prune fuel') fields
      | VArr items =>
          VArr <$> prune_items (prune fuel') (seq 0 (length items)) items
      | _ => Some obj
      end
  end.

(** The number of nodes of a tree: no chain of calls is longer. *)
Fixpoint size_of (v : value) : nat :=
  match v with
  | VArr items => S (sum_list_with size_of items)
  | VObj fields => S (sum_list_with (fun kv => size_of kv.2) fields)
  | _ => 1%nat
  end.

Definition removeEmptyElements (obj : value) : option value :=
  prune (size_of obj) obj.

(** ** Cosmetic formatting: [formatDiagram] (c4tool.js)

    [diagram.replace(/([^:])\n(\s{1,})-/g, '$1\n\n$2-')] *)

(** [\s], on the code units the model has. *)
Definition is_space (c : ascii) : bool :=
  existsb (Nat.eqb (nat_of_ascii c)) [9; 10; 11; 12; 13; 32; 160]%nat.

(** The run of white space at the head of [s], which [\s{1,}] takes whole. *)
Fixpoint spaces (s : string) : nat :=
  match s with
  | String c s' => if is_space c then S (spaces s') else O
  | EmptyString => O
  end.

(** Whether the pattern matches at the head of [s]: a code unit that is no
    colon, a line feed, one or more white space and a dash; the answer is
    the number of code units the match holds after the first.  The greedy
    run is the only one to try: a shorter run is followed by white space,
    not by a dash. *)
Definition match_here (s : string) : option nat :=
  match s with
  | String c (String nl rest) =>
      if negb (Ascii.eqb c ":") && Ascii.eqb nl (ascii_of_nat 10)
         && Nat.ltb 0 (spaces rest)
         && JsString.starts_with "-" (JsString.drop (spaces rest) rest)
      then Some (S (S (spaces rest)))
      else None
  | _ => None
  end.

(** The global replace, left to right: where the pattern matches, its first
    code unit is written, then a line feed, then the rest of the match as it
    is ([hold] code units are copied before the search goes on: matches do
    not overlap). *)
Fixpoint format_from (hold : nat) (s : string) : string :=
  match s with
  | EmptyString => EmptyString
  | String c s' =>
      match hold with
      | S h => String c (format_from h s')
      | O =>
          match match_here s with
          | Some n => String c (String (ascii_of_nat 10) (format_from n s'))
          | None => String c (format_from O s')
          end
      end
  end.

Definition formatDiagram (diagram : string) : string := format_from O diagram.

(** ** Browser lookup: [chromePath] (c4tool.js)

    [process.platform] and [fs.existsSync] are the two things the function
    reads from its environment; they are its arguments here. *)

(** [possiblePaths[platform]], when it is one of the three arrays.  Any
    other name gives [undefined], or a member of [Object.prototype], and
    neither has a [find] to call. *)
Definition possiblePaths (platform : string) : option (list string) :=
  if String.eqb platform "win32" then
    Some ["C:\Program Files (x86)\Google\Chrome\Application\chrome.exe";
          "C:\Program Files (x86)\Google\Application\chrome.exe"]
  else if String.eqb platform "darwin" then
    Some ["/Applications/Chromium.app/Contents/MacOS/Chromium";
          "/Applications/Google Chrome.app/Contents/MacOS/Google Chrome"]
  else if String.eqb platform "linux" then
    Some ["/usr/bin/chromium"; "/usr/bin/chromium-browser"]
  else None.

(** [possiblePaths[process.platform].find(path => fs.existsSync(path)) || null]:
    [None] is [null]; a path that is found is a non-empty string, so [||]
    keeps it. *)
Definition chromePath (platform : string) (existsSync : string -> bool)
    : result (option string) :=
  match possiblePaths platform with
  | Some paths => Ok (List.find existsSync paths)
  | None => Throw TypeError
  end.

(** ** Vocabulary of the properties *)

(** A sequence whose neighbours the comparator already puts in order. *)
Fixpoint in_order {A : Type} (cmp : A -> A -> result Z) (l : list A) : Prop :=
  match l with
  | x :: (y :: _) as rest => (exists c, cmp x y = Ok c /\ c <= 0) /\ in_order cmp rest
  | _ => True
  end.

(** The nodes of rank [p], in the order the sequence has them. *)
Definition ranked {A : Type} (rank : A -> Z) (p : Z) (l : list A) : list A :=
  filter (fun x => rank x = p) l.

Definition ascending {A : Type} (rank : A -> Z) : list A -> Prop :=
  StronglySorted (fun a b => rank a <= rank b).

(** A node the comparator can take the key of. *)
Definition keyed (props : list string) (item : value) : Prop :=
  exists k, sortKey item props = Ok k.


(** The position the spec gives a key: its entry in the table, or the size
    of the table. *)
Definition table_position (order : gmap string Z) (k : string) : Z :=
  default (Z.of_nat (size order)) (order !! k).

(** A key is listed faithfully when [in] answers what the table holds: the
    key has an entry, or it is no inherited name. *)
Definition faithful (order : gmap string Z) (k : string) : Prop :=
  is_Some (order !! k) \/ inherited k = false.

Definition node_position (order : gmap string Z) (props : list string)
    (item : value) : Z :=
  match sortKey item props with
  | Ok k => table_position order k
  | Throw _ => 0
  end.

(** The keys of the selected nodes, in order. *)
Definition keys_of (selected : list value) (props : list string) : result (list string) :=
  mapR (fun item => sortKey item props) selected.



(** What [jp.query] accepts as its first argument. *)
Definition is_tree (v : value) : Prop :=
  match v with VArr _ | VObj _ => True | _ => False end.




(** [jp.query(obj, path)]: the values of the selected nodes. *)
Definition selected (StringToNumber : string -> option Z) (obj : value)
    (path : list component) : list value :=
  (walk StringToNumber obj path).*2.


(** [self] returns, without growing its argument, on trees of at most
    [bound] nodes. *)
Definition returns_below (bound : nat) (self : value -> option value) : Prop :=
  forall v, (size_of v <= bound)%nat ->
    exists v', self v = Some v' /\ (size_of v' <= size_of v)%nat
               /\ (forall l, v = VArr l -> exists l', v' = VArr l').

(** No property of the tree, at any depth, is [null] or the empty string. *)
Fixpoint clean (v : value) : bool :=
  match v with
  | VArr items => forallb (fun x => negb (is_empty x) && clean x) items
  | VObj fields => forallb (fun kv => negb (is_empty kv.2) && clean kv.2) fields
  | _ => true
  end.

(** The tree holds no sequence. *)
Fixpoint sequence_free (v : value) : bool :=
  match v with
  | VArr _ => false
  | VObj fields => forallb (fun kv => sequence_free kv.2) fields
  | _ => true
  end.

(** [t] is [s] with line feeds inserted. *)
Inductive spaced : string -> string -> Prop :=
| spaced_end : spaced EmptyString EmptyString
| spaced_keep c s t : spaced s t -> spaced (String c s) (String c t)
| spaced_feed s t : spaced s t -> spaced s (String (ascii_of_nat 10) t).

(** The pattern of [formatDiagram] matches somewhere in [s]. *)
Definition has_match (s : string) : Prop :=
  exists pre m n, s = pre +:+ m /\ match_here m = Some n.

(** [v'] is [v] with the items of one of its sequences permuted. *)
Definition permuted_at (v v' : value) : Prop :=
  exists l items items',
    lookup_at l v = Some (VArr items) /\ items' ≡ₚ items
    /\ v' = update_at l (fun _ => VArr items') v.

(** [v'] is reached from [v] by permuting sequences, one after the other. *)
Definition rearranged : value -> value -> Prop := rtc permuted_at.

(** Both roots of the store are mappings or sequences. *)
Definition trees (st : store) : Prop := is_tree (initial st) /\ is_tree (actual st).

(** [v] is a sequence; a field that holds a sequence. *)
Definition is_sequence (v : value) : bool :=
  match v with VArr _ => true | _ => false end.

Definition sequence_field (fields : list (string * value)) (f : string) : bool :=
  match own fields f with Some v => is_sequence v | None => false end.

(** What a call gives back is no larger than its argument, and of the
    same size only when it is the argument itself and holds nothing empty. *)
Definition tight (self : value -> option value) : Prop :=
  forall x x', self x = Some x' ->
    (size_of x' <= size_of x)%nat
    /\ (size_of x' = size_of x -> x' = x /\ clean x = true).

(** ** Sample documents *)

Definition element (name : string) : value := VObj [("name", VStr name)].


Definition element_with (name : string) (containers : list value) : value :=
  VObj [("name", VStr name); ("containers", VArr containers)].

Definition rel (source destination : string) : value :=
  VObj [("source", VStr source); ("destination", VStr destination)].

Definition document (elements relationships : list value) : value :=
  VObj [("elements", VArr elements); ("relationships", VArr relationships)].

Definition reference_YX : value := document [element "Y"; element "X"] [].

Definition target_XYZ : value :=
  document [element "X"; element "Y"; element "Z"] [].




(** * Properties *)

(** A decidable statement about concrete data, settled by evaluation. *)
Ltac by_computation :=
  match goal with
  | |- ?P => refine (bool_decide_unpack P _); vm_compute; exact I
  end.

(** A concrete key is faithful: look it up, or check it against the
    inherited names. *)
Ltac faithful_key :=
  first [ left; eexists; reflexivity | right; reflexivity ].

Section Outcomes.

Lemma Ok_bind {A B : Type} (a : A) (f : A -> result B) : Ok a ≫= f = f a.
Proof. reflexivity. Qed.

Lemma bind_Ok {A B : Type} (r : result A) (f : A -> result B) (b : B) :
  r ≫= f = Ok b -> exists a, r = Ok a /\ f a = Ok b.
Proof. destruct r as [a|e]; [eauto | discriminate]. Qed.


Lemma mapR_Forall2 {A B : Type} (f : A -> result B) l ks :
  mapR f l = Ok ks -> Forall2 (fun x k => f x = Ok k) l ks.
Proof.
  revert ks. induction l as [|x l IH]; intros ks H.
  - injection H as <-. constructor.
  - cbn [mapR] in H. apply bind_Ok in H as (y & Hy & H).
    apply bind_Ok in H as (ys & Hys & H). injection H as <-.
    constructor; [done | by apply IH].
Qed.

Lemma mapR_length {A B : Type} (f : A -> result B) l ks :
  mapR f l = Ok ks -> length ks = length l.
Proof. intros H. apply mapR_Forall2 in H. by rewrite (Forall2_length _ _ _ H). Qed.

End Outcomes.

(** ** The Marker Normalizer *)

Section MarkerNormalizer.

Import JsString.

Lemma app_String a (s t : string) : String a s +:+ t = String a (s +:+ t).
Proof. reflexivity. Qed.

Lemma app_empty (t : string) : "" +:+ t = t.
Proof. reflexivity. Qed.

Lemma starts_with_spec p s :
  starts_with p s = true <-> exists post, s = p +:+ post.
Proof.
  revert s. induction p as [|a p IH]; intros s; simpl.
  - split; [intros _; by exists s | done].
  - destruct s as [|b s].
    + split; [discriminate | intros [post H]; discriminate].
    + destruct (Ascii.eqb_spec a b) as [->|Hne].
      * rewrite IH. split; intros [post H]; exists post.
        -- by rewrite app_String, <- H.
        -- rewrite app_String in H. by injection H.
      * split; [discriminate |].
        intros [post H]. rewrite app_String in H. injection H; congruence.
Qed.

Lemma indexOf_from_lower p s i : indexOf_from p s i = -1 \/ i <= indexOf_from p s i.
Proof.
  revert i. induction s as [|b s IH]; intros i; simpl.
  - destruct (starts_with p ""); [right; lia | by left].
  - destruct (starts_with p (String b s)); [right; lia |].
    destruct (IH (i + 1)) as [H|H]; [by left | right; lia].
Qed.

(** When the scan finds an offset, the text splits there: the part before
    holds no earlier occurrence, the part from there on starts with [p]. *)
Lemma indexOf_from_found p s i k :
  0 <= i -> indexOf_from p s i = k -> 0 <= k ->
  exists pre, s = pre +:+ drop (Z.to_nat (k - i)) s
    /\ String.length pre = Z.to_nat (k - i)
    /\ starts_with p (drop (Z.to_nat (k - i)) s) = true
    /\ forall pre' post', s = pre' +:+ p +:+ post' ->
         (String.length pre <= String.length pre')%nat.
Proof.
  revert i. induction s as [|b s IH]; intros i Hi Hk Hk0; simpl in Hk.
  - destruct (starts_with p "") eqn:Hp; [|lia].
    subst k. replace (i - i) with 0 by lia. exists "". simpl.
    repeat split; auto. intros; lia.
  - destruct (starts_with p (String b s)) eqn:Hp.
    + subst k. replace (i - i) with 0 by lia. exists "". simpl.
      repeat split; auto. intros; lia.
    + destruct (indexOf_from_lower p s (i + 1)) as [Hm|Hlow]; [lia|].
      rewrite Hk in Hlow.
      destruct (IH (i + 1) ltac:(lia) Hk Hk0) as (pre & Hsplit & Hlen & Hst & Hmin).
      replace (Z.to_nat (k - i)) with (S (Z.to_nat (k - (i + 1)))) by lia.
      exists (String b pre). simpl. rewrite app_String. repeat split.
      * f_equal. exact Hsplit.
      * by rewrite Hlen.
      * done.
      * intros pre' post' Heq. destruct pre' as [|c pre'].
        -- rewrite app_empty in Heq.
           assert (starts_with p (String b s) = true) as Hc
             by (apply starts_with_spec; eauto). congruence.
        -- rewrite app_String in Heq. injection Heq as -> Heq. simpl.
           specialize (Hmin _ _ Heq). lia.
Qed.

Lemma indexOf_from_missing p s i :
  indexOf_from p s i = -1 -> 0 <= i -> ~ occurs p s.
Proof.
  revert i. induction s as [|b s IH]; intros i Hk Hi (pre & post & Heq); simpl in Hk.
  - destruct (starts_with p "") eqn:Hp; [lia|].
    destruct pre; [|discriminate]. rewrite app_empty in Heq.
    assert (starts_with p "" = true) by (apply starts_with_spec; eauto). congruence.
  - destruct (starts_with p (String b s)) eqn:Hp; [lia|].
    destruct pre as [|c pre].
    + rewrite app_empty in Heq.
      assert (starts_with p (String b s) = true) by (apply starts_with_spec; eauto).
      congruence.
    + rewrite app_String in Heq. injection Heq as -> Heq.
      apply (IH (i + 1)); [done | lia |]. by exists pre, post.
Qed.

(** C7 (as amended): when the marker [---] occurs in the text, [prepareYaml]
    returns the suffix of the text that begins at the first occurrence of the
    marker; when it does not occur, [prepareYaml] returns the marker, a line
    feed, and then the text unchanged. *)
Theorem prepareYaml_spec (t : string) :
  (occurs marker t ->
     exists pre, t = pre +:+ prepareYaml t
       /\ starts_with marker (prepareYaml t) = true
       /\ forall pre' post', t = pre' +:+ marker +:+ post' ->
            (String.length pre <= String.length pre')%nat)
  /\ (~ occurs marker t -> prepareYaml t = marker +:+ newline +:+ t).
Proof.
  unfold prepareYaml, indexOf, substring.
  destruct (indexOf_from_lower marker t 0) as [Hm|Hlow].
  - rewrite Hm. simpl. split; [|done].
    intros Hocc. by destruct (indexOf_from_missing _ _ _ Hm ltac:(lia)).
  - destruct (0 <=? indexOf_from marker t 0) eqn:Hle; [|lia].
    destruct (indexOf_from_found marker t 0 _ ltac:(lia) eq_refl Hlow)
      as (pre & Hsplit & _ & Hst & Hmin).
    rewrite Z.sub_0_r in *. split.
    + intros _. by exists pre.
    + intros Hno. destruct Hno.
      apply starts_with_spec in Hst as [post Hpost].
      exists pre, post. by rewrite <- Hpost.
Qed.

(** No token can play the marker of a rule that looks for the token and
    prepends the same token.  On the empty text the result is
    [---] and a line feed, so that would be the token; but the text [a---b]
    does not hold it, and the result there is [---b]. *)
Lemma prepareYaml_prepends_marker_line :
  ~ exists token,
      (forall t, occurs token t -> exists pre, t = pre +:+ prepareYaml t)
      /\ (forall t, ~ occurs token t -> prepareYaml t = token +:+ t).
Proof.
  intros (token & Hfound & Hmissing).
  assert (~ occurs token "") as Hempty.
  { intros Hocc. destruct (Hfound "" Hocc) as [pre Hpre].
    destruct pre; discriminate. }
  pose proof (Hmissing "" Hempty) as Htoken.
  assert (token = marker +:+ newline) as ->.
  { clear -Htoken. change (prepareYaml "") with (marker +:+ newline) in Htoken.
    rewrite Htoken. clear. induction token as [|c token IH]; [done|].
    by rewrite app_String, <- IH. }
  assert (~ occurs (marker +:+ newline) "a---b") as Hno.
  { apply (indexOf_from_missing _ "a---b" 0); [reflexivity | lia]. }
  specialize (Hmissing "a---b" Hno). vm_compute in Hmissing. discriminate.
Qed.

Lemma prepareYaml_spec_witness :
  (occurs marker "x---y" /\ exists pre, "x---y" = pre +:+ prepareYaml "x---y")
  /\ (~ occurs marker "a" /\ prepareYaml "a" = marker +:+ newline +:+ "a").
Proof.
  assert (occurs marker "x---y") as Hocc by (by exists "x", "y").
  assert (~ occurs marker "a") as Hno
    by (apply (indexOf_from_missing marker "a" 0); [reflexivity | lia]).
  split; split; [exact Hocc | | exact Hno |].
  - destruct (proj1 (prepareYaml_spec "x---y") Hocc) as (pre & Hpre & _).
    by exists pre.
  - exact (proj2 (prepareYaml_spec "a") Hno).
Defined.

End MarkerNormalizer.

(** ** The Key Extractor *)

Section KeyExtractor.

Import JsString.








Lemma js_lt_irrefl p : js_lt p p = false.
Proof.
  destruct p as [n|s]; simpl; [apply Z.ltb_irrefl|].
  unfold String.ltb. pose proof (String.compare_antisym s s) as H.
  by destruct (String.compare s s).
Qed.

(** C10: the key does not tell nodes apart: the relationships [a.b -> c] and
    [a -> b.c] differ in both end points and have the same key [a.b.c]; the
    order table built from the two holds one entry, and under every order
    table the comparator ranks them equal. *)
Theorem sortKey_not_injective :
  exists a b key,
    get a "source" <> get b "source"
    /\ get a "destination" <> get b "destination"
    /\ sortKey a ["source"; "destination"] = Ok key
    /\ sortKey b ["source"; "destination"] = Ok key
    /\ ordering_reduce [a; b] ["source"; "destination"] 0 ∅ = Ok {[ key := 1 ]}
    /\ forall order,
         orderApply a b order ["source"; "destination"] = Ok 0
         /\ orderApply b a order ["source"; "destination"] = Ok 0.
Proof.
  exists (rel "a.b" "c"), (rel "a" "b.c"), "a.b.c".
  assert (sortKey (rel "a.b" "c") ["source"; "destination"] = Ok "a.b.c") as Ha
    by reflexivity.
  assert (sortKey (rel "a" "b.c") ["source"; "destination"] = Ok "a.b.c") as Hb
    by reflexivity.
  split; [by vm_compute|]. split; [by vm_compute|].
  split; [exact Ha|]. split; [exact Hb|]. split.
  - cbn [ordering_reduce]. rewrite Ha, Hb. cbn.
    unfold assign. cbn. by rewrite insert_insert_eq.
  - intros order. unfold orderApply. rewrite Ha, Hb. cbn.
    by rewrite js_lt_irrefl.
Qed.

End KeyExtractor.

(** ** The sort *)

Section ArraySort.

Context {A : Type} (cmp : A -> A -> result Z).

Lemma sort_insert_perm x l l' :
  sort_insert cmp x l = Ok l' -> l' ≡ₚ x :: l.
Proof.
  revert l'. induction l as [|y l IH]; intros l' H; simpl in H.
  - by injection H as <-.
  - destruct (cmp x y) as [c|e]; simpl in H; [|discriminate].
    destruct (c <=? 0).
    + by injection H as <-.
    + destruct (sort_insert cmp x l) as [r|e]; simpl in H; [|discriminate].
      injection H as <-. rewrite (IH r eq_refl). apply Permutation_swap.
Qed.

Lemma array_sort_perm l l' :
  array_sort cmp l = Ok l' -> l' ≡ₚ l.
Proof.
  revert l'. induction l as [|x l IH]; intros l' H; simpl in H.
  - by injection H as <-.
  - destruct (array_sort cmp l) as [s|e]; simpl in H; [|discriminate].
    rewrite (sort_insert_perm _ _ _ H). by rewrite (IH s eq_refl).
Qed.

(** The sort returns when the comparator does on the items it is given. *)
Lemma sort_insert_returns (P : A -> Prop) x l :
  (forall a b, P a -> P b -> exists c, cmp a b = Ok c) ->
  P x -> Forall P l -> exists l', sort_insert cmp x l = Ok l'.
Proof.
  intros Hcmp Hx. induction 1 as [|y l Hy Hl IH]; simpl; [eauto|].
  destruct (Hcmp x y Hx Hy) as [c ->]. simpl.
  destruct (c <=? 0); [eauto|].
  destruct IH as [r ->]. simpl. eauto.
Qed.

Lemma array_sort_returns (P : A -> Prop) l :
  (forall a b, P a -> P b -> exists c, cmp a b = Ok c) ->
  Forall P l -> exists l', array_sort cmp l = Ok l'.
Proof.
  intros Hcmp. induction 1 as [|x l Hx Hl IH]; simpl; [eauto|].
  destruct IH as [s Hs]. rewrite Hs. simpl.
  apply (sort_insert_returns P); [done..|].
  by rewrite (array_sort_perm _ _ Hs).
Qed.

Lemma array_sort_in_order l : in_order cmp l -> array_sort cmp l = Ok l.
Proof.
  induction l as [|x l IH]; intros H; [done|].
  simpl. rewrite IH by (destruct l; [done | apply H]).
  destruct l as [|y l]; [done|].
  destruct H as [(c & Hc & Hle) _]. simpl. rewrite Hc. simpl.
  by destruct (Z.leb_spec c 0); [|lia].
Qed.

End ArraySort.

Section StableSort.

Context {A : Type} (cmp : A -> A -> result Z) (rank : A -> Z) (P : A -> Prop).

(** The comparator is the three-way comparison of the ranks. *)
Hypothesis cmp_rank : forall a b, P a -> P b ->
  cmp a b = Ok (if rank a <? rank b then -1 else if rank b <? rank a then 1 else 0).

Lemma sort_insert_stable x sorted :
  P x -> Forall P sorted -> ascending rank sorted ->
  exists out, sort_insert cmp x sorted = Ok out
    /\ ascending rank out /\ forall p, ranked rank p out = ranked rank p (x :: sorted).
Proof.
  intros Hx Hall Hasc. induction Hall as [|y sorted Hy Hall IH]; simpl.
  - exists [x]. split; [done|]. split; [|done]. repeat constructor.
  - rewrite (cmp_rank x y Hx Hy).
    apply StronglySorted_inv in Hasc as [Hasc Hle]. rewrite Ok_bind.
    destruct (Z.ltb_spec (rank x) (rank y)) as [Hlt|Hge].
    { exists (x :: y :: sorted). split; [done|]. split; [|done].
      constructor; [by constructor|]. constructor; [lia|].
      eapply Forall_impl; [exact Hle|]. simpl. lia. }
    destruct (Z.ltb_spec (rank y) (rank x)) as [Hlt|Hge'].
    + destruct (IH Hasc) as (out & Hout & Hasc' & Hranked). simpl.
      rewrite Hout, Ok_bind. exists (y :: out). split; [done|]. split.
      * constructor; [done|].
        apply sort_insert_perm in Hout. rewrite Hout.
        constructor; [lia | done].
      * intros p. unfold ranked in *. rewrite !filter_cons, Hranked, filter_cons.
        repeat case_decide; try done; lia.
    + simpl. exists (x :: y :: sorted). split; [done|]. split; [|done].
      constructor; [by constructor|]. constructor; [lia|].
      eapply Forall_impl; [exact Hle|]. simpl. lia.
Qed.

Lemma array_sort_stable l :
  Forall P l ->
  exists out, array_sort cmp l = Ok out
    /\ out ≡ₚ l /\ ascending rank out /\ forall p, ranked rank p out = ranked rank p l.
Proof.
  induction 1 as [|x l Hx Hall IH]; simpl.
  - exists []. repeat split; [done | constructor].
  - destruct IH as (sorted & Hsorted & Hperm & Hasc & Hranked).
    rewrite Hsorted, Ok_bind.
    destruct (sort_insert_stable x sorted Hx) as (out & Hout & Hasc' & Hranked');
      [by rewrite Hperm | done |].
    exists out. split; [done|]. split; [|split; [done|]].
    + apply sort_insert_perm in Hout. by rewrite Hout, Hperm.
    + intros p. rewrite Hranked'. unfold ranked in *.
      by rewrite !filter_cons, Hranked.
Qed.

End StableSort.


(** ** The Reorderer *)

Section Reorderer.

Lemma orderApply_returns order props a b :
  keyed props a -> keyed props b -> exists c, orderApply a b order props = Ok c.
Proof.
  intros [ka Ha] [kb Hb]. unfold orderApply. rewrite Ha, Hb. simpl.
  destruct (js_lt _ _); [eauto|]. destruct (js_lt _ _); eauto.
Qed.

(** C3: whatever the collection, the order table and the property list, the
    array the Reorderer leaves behind is a permutation of the array it was
    given (same nodes, each as often as before, hence the same count); and
    the Reorderer does leave an array behind when every node has a key. *)
Theorem reorder_permutation (collection : list value) (order : gmap string Z)
    (props : list string) :
  (forall out, reorder collection order props = Ok out ->
     out ≡ₚ collection /\ length out = length collection)
  /\ (Forall (keyed props) collection ->
      exists out, reorder collection order props = Ok out).
Proof.
  split.
  - intros out H. apply array_sort_perm in H. split; [done | by rewrite H].
  - intros H. apply (array_sort_returns _ (keyed props)); [|done].
    intros a b. apply orderApply_returns.
Qed.

End Reorderer.

Section ReordererSamples.

Lemma reorder_permutation_witness :
  exists out,
    reorder [element "X"; element "Y"; element "Z"] {[ "Y" := 0; "X" := 1 ]} ["name"]
    = Ok out
    /\ out ≡ₚ [element "X"; element "Y"; element "Z"].
Proof.
  destruct (reorder_permutation [element "X"; element "Y"; element "Z"]
              {[ "Y" := 0; "X" := 1 ]} ["name"]) as [Hperm Hreturns].
  destruct Hreturns as [out Hout].
  - repeat constructor; eexists; reflexivity.
  - exists out. split; [exact Hout|]. exact (proj1 (Hperm out Hout)).
Defined.

End ReordererSamples.

Section ReordererByPosition.

Lemma position_of_faithful order k :
  faithful order k -> position_of order k = Num (table_position order k).
Proof.
  unfold position_of, table_position. intros [[i ->]| ->]; [done|].
  by destruct (order !! k).
Qed.







End ReordererByPosition.

(** ** The comparator and inherited names *)

Section InheritedNames.

(** Under an empty table all keys that are no inherited names tie at
    position 0, and the collection keeps its order. *)
Lemma reorder_empty_table items props :
  Forall (fun item => exists k, sortKey item props = Ok k /\ inherited k = false)
         items ->
  reorder items ∅ props = Ok items.
Proof.
  intros H. apply array_sort_in_order.
  induction H as [|x items (kx & Hx & Hkx) H IH]; [done|].
  destruct H as [|y items (ky & Hy & Hky) H]; [done|].
  split; [|exact IH]. exists 0. split; [|lia].
  unfold orderApply, position_of. rewrite Hx, Hy, !Ok_bind.
  by rewrite !lookup_empty, Hkx, Hky.
Qed.

(** An inherited name at the Reorderer: with the table [{A: 0}] built from
    the reference [[A]], the node named [constructor] has no entry in the
    table, yet [in] finds the inherited property, the comparison with a
    number is false both ways, and the node stays in front of the matched
    node [A]. *)
Lemma reorder_inherited_name :
  exists order,
    ordering_reduce [element "A"] ["name"] 0 ∅ = Ok order
    /\ order !! "constructor" = None
    /\ order !! "A" = Some 0
    /\ orderApply (element "constructor") (element "A") order ["name"] = Ok 0
    /\ reorder [element "constructor"; element "A"] order ["name"]
       = Ok [element "constructor"; element "A"].
Proof.
  exists {[ "A" := 0 ]}. repeat split; reflexivity.
Qed.

End InheritedNames.

(** ** The Empty-Value Pruner *)

Section PrunerReturns.

Local Open Scope nat_scope.

Lemma size_of_pos v : 1 <= size_of v.
Proof. destruct v; simpl; lia. Qed.

Lemma sum_delete (cur : list value) k v :
  cur !! k = Some v ->
  sum_list_with size_of (delete k cur) + size_of v = sum_list_with size_of cur.
Proof.
  intros H. rewrite <- (take_drop_middle _ _ _ H) at 2.
  rewrite delete_take_drop, !sum_list_with_app. simpl. lia.
Qed.

Lemma sum_insert (cur : list value) k v v' :
  cur !! k = Some v -> size_of v' <= size_of v ->
  sum_list_with size_of (<[k := v']> cur) <= sum_list_with size_of cur.
Proof.
  intros H Hle. rewrite <- (take_drop_middle _ _ _ H) at 2.
  rewrite insert_take_drop by (by eapply lookup_lt_Some).
  rewrite !sum_list_with_app. simpl. lia.
Qed.

Lemma prune_fields_returns self bound fields :
  returns_below bound self ->
  sum_list_with (fun kv => size_of kv.2) fields <= bound ->
  exists fields',
    prune_fields self fields = Some fields'
    /\ sum_list_with (fun kv => size_of kv.2) fields'
       <= sum_list_with (fun kv => size_of kv.2) fields.
Proof.
  intros Hself. induction fields as [|[k v] fields IH]; intros Hle; simpl in *.
  - exists []. split; [done | simpl; lia].
  - destruct IH as (rest' & Hrest & Hsum); [lia|].
    destruct (is_empty v).
    + exists rest'. split; [done | lia].
    + assert (exists v', (if is_object v then self v else Some v) = Some v'
                         /\ size_of v' <= size_of v) as (v' & -> & Hv').
      { destruct (is_object v); [|eauto].
        destruct (Hself v) as (v' & ? & ? & _); [lia | eauto]. }
      rewrite Hrest. simpl. exists ((k, v') :: rest'). split; [done | simpl; lia].
Qed.

Lemma prune_items_returns self bound ks cur :
  returns_below bound self ->
  sum_list_with size_of cur <= bound ->
  exists out,
    prune_items self ks cur = Some out
    /\ sum_list_with size_of out <= sum_list_with size_of cur.
Proof.
  intros Hself. revert cur. induction ks as [|k ks IH]; intros cur Hle; simpl.
  - eauto.
  - destruct (cur !! k) as [v|] eqn:Hv; [|by apply IH].
    pose proof (sum_delete _ _ _ Hv) as Hdel.
    pose proof (size_of_pos v) as Hpos.
    destruct (is_empty v).
    + simpl. destruct (Nat.eqb (length (delete k cur)) k).
      * destruct (Hself (VArr (delete k cur))) as (again & Hagain & Hsize & Hshape);
          [simpl; lia|].
        destruct (Hshape _ eq_refl) as [l' ->]. rewrite Hagain. simpl in *.
        destruct (IH l') as (out & -> & Hout); [lia|]. exists out. split; [done|lia].
      * simpl. destruct (IH (delete k cur)) as (out & -> & Hout); [lia|].
        exists out. split; [done|lia].
    + assert (exists cur',
                (if is_object v then v' ← self v; Some (<[k := v']> cur) else Some cur)
                = Some cur'
                /\ length cur' = length cur
                /\ sum_list_with size_of cur' <= sum_list_with size_of cur)
        as (cur' & -> & Hlen & Hsum).
      { destruct (is_object v); [|eauto].
        destruct (Hself v) as (v' & -> & Hv' & _).
        - pose proof (sum_list_with_in v size_of cur) as Hin.
          specialize (Hin (list_elem_of_lookup_2 _ _ _ Hv)). lia.
        - simpl. eexists. split; [done|]. split; [apply length_insert|].
          by eapply sum_insert. }
      simpl. apply lookup_lt_Some in Hv.
      destruct (Nat.eqb_spec (length cur') k) as [Heq|_]; [lia|]. simpl.
      destruct (IH cur') as (out & -> & Hout); [lia|]. exists out. split; [done|lia].
Qed.

Lemma prune_returns fuel : returns_below fuel (prune fuel).
Proof.
  induction fuel as [|fuel IH]; intros v Hv.
  - pose proof (size_of_pos v). lia.
  - destruct v as [| | | |items|fields]; simpl in *;
      try (eexists; split; [done|]; split; [done|]; intros; discriminate).
    + destruct (prune_items_returns (prune fuel) fuel (seq 0 (length items)) items IH)
        as (out & -> & Hout); [lia|].
      exists (VArr out). split; [done|]. split; [simpl; lia | eauto].
    + destruct (prune_fields_returns (prune fuel) fuel fields IH)
        as (out & -> & Hout); [lia|].
      exists (VObj out). split; [done|]. split; [simpl; lia | intros; discriminate].
Qed.

(** The pruner returns on every tree: the calls it makes on children and on
    shortened sequences never exhaust the bound. *)
Lemma removeEmptyElements_returns obj : exists v, removeEmptyElements obj = Some v.
Proof.
  destruct (prune_returns (size_of obj) obj) as (v & Hv & _); [lia | eauto].
Qed.

End PrunerReturns.

Section PrunerOnMappings.

Lemma prune_fields_clean self fields fields' :
  (forall v v', sequence_free v = true -> is_object v = true -> self v = Some v' ->
     clean v' = true /\ is_empty v' = false) ->
  forallb (fun kv => sequence_free kv.2) fields = true ->
  prune_fields self fields = Some fields' ->
  forallb (fun kv => negb (is_empty kv.2) && clean kv.2) fields' = true.
Proof.
  intros Hself. revert fields'.
  induction fields as [|[k v] fields IH]; intros fields' Hfree H; simpl in *.
  - by injection H as <-.
  - apply andb_true_iff in Hfree as [Hv Hfree].
    destruct (is_empty v) eqn:Hempty; [by apply IH|].
    destruct (if is_object v then self v else Some v) as [v'|] eqn:Hv'; [|done].
    simpl in H. destruct (prune_fields self fields) as [rest'|]; [|done].
    injection H as <-. simpl. rewrite (IH rest' Hfree eq_refl), andb_true_r.
    destruct (is_object v) eqn:Hobj.
    + destruct (Hself v v' Hv Hobj Hv') as [-> ->]. done.
    + injection Hv' as <-. rewrite Hempty. by destruct v.
Qed.

Lemma prune_clean fuel v v' :
  sequence_free v = true -> prune fuel v = Some v' ->
  clean v' = true /\ is_empty v' = is_empty v.
Proof.
  revert v v'. induction fuel as [|fuel IH]; intros v v' Hfree H; [done|].
  destruct v as [| | | |items|fields]; simpl in *;
    try done; try by injection H as <-.
  destruct (prune_fields (prune fuel) fields) as [out|] eqn:Hout; [|done].
  injection H as <-. split; [|done]. simpl.
  apply (prune_fields_clean (prune fuel) fields); [|done..].
  intros x x' Hx Hobj Hx'. destruct (IH x x' Hx Hx') as [Hclean Hsame].
  split; [done|]. rewrite Hsame. by destruct x.
Qed.

(** On a tree without sequences the pruner removes all it should: no
    property of the result is [null] or the empty string. *)
Lemma removeEmptyElements_mappings_clean obj :
  sequence_free obj = true ->
  exists v, removeEmptyElements obj = Some v /\ clean v = true.
Proof.
  intros Hfree. destruct (removeEmptyElements_returns obj) as [v Hv].
  exists v. split; [done|]. by apply (prune_clean _ _ _ Hfree Hv).
Qed.

End PrunerOnMappings.

Section Pruner.

(** C6: pruning [{a: null, b: "", c: "x", d: 0, e: false}] gives exactly
    [{c: "x", d: 0, e: false}]. *)
Theorem removeEmptyElements_sample :
  removeEmptyElements
    (VObj [("a", VNull); ("b", VStr ""); ("c", VStr "x"); ("d", VNum 0);
           ("e", VBool false)])
  = Some (VObj [("c", VStr "x"); ("d", VNum 0); ("e", VBool false)]).
Proof. reflexivity. Qed.

(** C5 fails on the code: in [{tags: [null, null]}] the second [null] moves
    to index 0 when the first is spliced out, the loop goes on to index 1,
    which no longer exists, and the item stays. *)
Theorem removeEmptyElements_skips_sibling :
  removeEmptyElements (VObj [("tags", VArr [VNull; VNull])])
  = Some (VObj [("tags", VArr [VNull])]).
Proof. reflexivity. Qed.

End Pruner.

(** ** References into a tree *)

Section References.

(** Induction over trees, with the induction hypothesis for every child. *)
Lemma value_children_ind (P : value -> Prop) :
  P VNull -> (forall b, P (VBool b)) -> (forall n, P (VNum n)) ->
  (forall s, P (VStr s)) ->
  (forall items, Forall P items -> P (VArr items)) ->
  (forall fields, Forall (fun kv => P kv.2) fields -> P (VObj fields)) ->
  forall v, P v.
Proof.
  intros Hnull Hbool Hnum Hstr Harr Hobj.
  fix IH 1. intros [| b | n | s | items | fields].
  - exact Hnull.
  - apply Hbool.
  - apply Hnum.
  - apply Hstr.
  - apply Harr. induction items as [|x items IHitems]; constructor.
    + apply IH.
    + exact IHitems.
  - apply Hobj. induction fields as [|[k x] fields IHfields]; constructor.
    + apply IH.
    + exact IHfields.
Qed.

Lemma lookup_at_app l i v :
  lookup_at (l ++ [i]) v = lookup_at l v ≫= fun x => kids x !! i.
Proof.
  revert v. induction l as [|j l IH]; intros v; simpl.
  - by destruct (kids v !! i).
  - destruct (kids v !! j) as [x|]; simpl; [apply IH | done].
Qed.

Lemma field_index_own fields k i x :
  field_index fields k = Some i -> own fields k = Some x ->
  fields !! i = Some (k, x).
Proof.
  revert i. induction fields as [|[k' y] fields IH]; intros i Hi Hx; [done|].
  simpl in *. destruct (String.eqb_spec k' k) as [->|Hne].
  - by injection Hi as <-; injection Hx as <-.
  - destruct (field_index fields k) as [j|]; [|done].
    injection Hi as <-. simpl. by apply IH.
Qed.



Lemma imap_snd {A B : Type} (g : nat -> B) (l : list A) :
  (imap (fun i x => (g i, x)) l).*2 = l.
Proof.
  revert g. induction l as [|x l IH]; intros g; [done|].
  simpl. f_equal. apply (IH (g ∘ S)).
Qed.




End References.

Section Selection.

Variable StringToNumber : string -> option Z.








End Selection.

(** ** A collection against the table built from itself *)

Section OwnOrder.






End OwnOrder.

(** ** A pass over a target that is already in the reference's order *)

Section OwnOrderPass.

Variable StringToNumber : string -> option Z.


Lemma nodes_walk obj path :
  is_tree obj -> nodes StringToNumber obj path = Ok (walk StringToNumber obj path).
Proof. by destruct obj. Qed.



End OwnOrderPass.

(** ** Reconciling a document against itself *)

Section SelfReconciliation.

Variable StringToNumber : string -> option Z.





End SelfReconciliation.

Section SelfReconciliationSamples.



End SelfReconciliationSamples.

(** ** The reference tree *)

Section Frame.

Variable StringToNumber : string -> option Z.

Lemma forEach_initial body refs follow st st' :
  (forall r s s' f, body r s = Ok (s', f) -> initial s' = initial s) ->
  forEach body refs follow st = Ok st' -> initial st' = initial st.
Proof.
  intros Hbody. revert follow st. induction refs as [|r refs IH]; intros follow st H.
  - by injection H as <-.
  - cbn [forEach] in H. apply bind_Ok in H as ([s f] & Hstep & H).
    apply IH in H. apply Hbody in Hstep. simpl in H. congruence.
Qed.

(** A [sort] whose first argument is the target root writes to the target
    tree only. *)
Lemma sort_initial path prop from initialJsonPath props st st' :
  sort StringToNumber Actual path prop from initialJsonPath props st = Ok st' ->
  initial st' = initial st.
Proof.
  unfold sort. intros H. apply bind_Ok in H as (targets & _ & H).
  revert H. apply forEach_initial. clear. intros r s s' f H.
  destruct (lookup_at r (read s Actual)) as [el|]; [|by injection H as <- _].
  apply bind_Ok in H as (path & _ & H). apply bind_Ok in H as (order & _ & H).
  destruct el as [| | | | |fields]; try discriminate.
  destruct (field_index fields prop); [|discriminate].
  destruct (own fields prop) as [[| | | |items|]|]; try discriminate.
  apply bind_Ok in H as (moved & _ & H). by injection H as <- _.
Qed.

(** C9: when [sortDiagram] completes, the reference tree is the tree it was
    on entry, whatever the two documents; so a table built from it after the
    target has been processed is the table built from it before. *)
Theorem sortDiagram_reference_unchanged (st st' : store) :
  sortDiagram_passes StringToNumber st = Ok st' ->
  initial st' = initial st
  /\ forall path props,
       ordering StringToNumber (read st' Initial) path props
       = ordering StringToNumber (read st Initial) path props.
Proof.
  intros H. assert (initial st' = initial st) as Heq.
  { unfold sortDiagram_passes in H.
    apply bind_Ok in H as (st1 & H1 & H). apply bind_Ok in H as (st2 & H2 & H3).
    apply sort_initial in H1, H2, H3. congruence. }
  split; [done|]. intros path props. simpl. by rewrite Heq.
Qed.

End Frame.

Section ReconciliationSamples.

Lemma sortDiagram_reference_unchanged_witness :
  sortDiagram_passes (fun _ => None) (Store reference_YX target_XYZ)
  = Ok (Store reference_YX
          (document [element "Y"; element "X"; element "Z"] []))
  /\ initial (Store reference_YX
               (document [element "Y"; element "X"; element "Z"] []))
     = initial (Store reference_YX target_XYZ).
Proof.
  assert (sortDiagram_passes (fun _ => None) (Store reference_YX target_XYZ)
          = Ok (Store reference_YX
                  (document [element "Y"; element "X"; element "Z"] []))) as H
    by reflexivity.
  split; [exact H|].
  exact (proj1 (sortDiagram_reference_unchanged _ _ _ H)).
Defined.

(** C8 fails on the code: the reference has no element at all, so the table
    built for the target element [X] is empty; its containers [valueOf] and
    [toString] are still taken for entries of the table, because [in] finds
    the inherited properties of those names, the two functions compare by
    their text, and the containers change places. *)
Theorem containers_inherited_names (StringToNumber : string -> option Z) :
  ordering StringToNumber (document [] [])
    [Descendant "elements"; Filter (HasContainersNamed "X");
     Child "containers"; Wildcard] ["name"] = Ok ∅
  /\ sortDiagram StringToNumber (document [] [])
       (document [element_with "X" [element "valueOf"; element "toString"]] [])
     = Ok (document [element_with "X" [element "toString"; element "valueOf"]] []).
Proof. split; reflexivity. Qed.

(** The two reconciliations the spec works out in section 8. *)
Example end_to_end_ordering (StringToNumber : string -> option Z) :
  sortDiagram StringToNumber reference_YX target_XYZ
  = Ok (document [element "Y"; element "X"; element "Z"] []).
Proof. reflexivity. Qed.

Example container_correlation (StringToNumber : string -> option Z) :
  sortDiagram StringToNumber
    (document [element_with "A" [element "c2"; element "c1"]] [])
    (document [element_with "A" [element "c1"; element "c2"]] [])
  = Ok (document [element_with "A" [element "c2"; element "c1"]] []).
Proof. reflexivity. Qed.

(** A reference into an item follows the item when its sequence is sorted:
    the element [A] sits inside the container [c3], which the sort of the
    containers of [B] moves to the front, and the containers of [A] are
    sorted all the same. *)
Example nested_reference_follows (StringToNumber : string -> option Z) :
  let inner (cs : list value) :=
    VObj [("name", VStr "c3"); ("elements", VArr [element_with "A" cs])] in
  sortDiagram StringToNumber
    (document [element_with "B" [inner [element "c2"; element "c1"]; element "c4"]] [])
    (document [element_with "B" [element "c4"; inner [element "c1"; element "c2"]]] [])
  = Ok (document [element_with "B" [inner [element "c2"; element "c1"]; element "c4"]] []).
Proof. reflexivity. Qed.

End ReconciliationSamples.


(** * Further properties *)

(** ** The Marker Normalizer, once more *)

Section MarkerNormalizerAgain.

Import JsString.

Lemma prepareYaml_opens (t : string) :
  starts_with marker (prepareYaml t) = true.
Proof.
  unfold prepareYaml, indexOf, substring.
  destruct (indexOf_from_lower marker t 0) as [Hm|Hlow].
  - by rewrite Hm.
  - destruct (0 <=? indexOf_from marker t 0) eqn:Hle; [|lia].
    destruct (indexOf_from_found marker t 0 _ ltac:(lia) eq_refl Hlow)
      as (pre & _ & _ & Hst & _).
    by rewrite Z.sub_0_r in Hst.
Qed.

Lemma prepareYaml_fixed (t : string) :
  starts_with marker t = true -> prepareYaml t = t.
Proof.
  intros H. unfold prepareYaml, indexOf.
  assert (indexOf_from marker t 0 = 0) as ->; [|done].
  destruct t; simpl in *; by rewrite ?H.
Qed.

(** X1: Whatever the text, the result of [prepareYaml] begins with the marker
    [---], as its comment in the source promises. *)
Theorem prepareYaml_starts_with_marker (t : string) :
  exists rest, prepareYaml t = marker +:+ rest.
Proof. apply starts_with_spec, prepareYaml_opens. Qed.

(** X2: [prepareYaml] is idempotent: a text it has prepared is left as it is. *)
Theorem prepareYaml_idempotent (t : string) :
  prepareYaml (prepareYaml t) = prepareYaml t.
Proof. apply prepareYaml_fixed, prepareYaml_opens. Qed.

End MarkerNormalizerAgain.

(** ** Cosmetic formatting *)

Section Formatting.

Import JsString.

Lemma format_from_spaced s : forall hold, spaced s (format_from hold s).
Proof.
  induction s as [|c s IH]; intros hold; cbn [format_from]; [constructor|].
  destruct hold as [|h]; [|by constructor].
  destruct (match_here (String c s)); repeat constructor; apply IH.
Qed.

(** X3: [formatDiagram] only inserts line feeds: the result is the text with
    line feeds added, nothing removed, replaced or moved. *)
Theorem formatDiagram_inserts_line_feeds (s : string) :
  spaced s (formatDiagram s).
Proof. apply format_from_spaced. Qed.

Lemma spaced_length s t : spaced s t -> (String.length s <= String.length t)%nat.
Proof. induction 1; simpl; lia. Qed.

Lemma has_match_cons c s : has_match s -> has_match (String c s).
Proof.
  intros (pre & m & n & -> & Hm). exists (String c pre), m, n. by rewrite app_String.
Qed.

Lemma has_match_longer s :
  has_match s -> (String.length s < String.length (format_from O s))%nat.
Proof.
  intros (pre & m & n & -> & Hm). induction pre as [|c pre IH].
  - rewrite app_empty. destruct m as [|c m]; [done|]. cbn [format_from].
    rewrite Hm. cbn [String.length].
    pose proof (spaced_length _ _ (format_from_spaced m n)). lia.
  - rewrite app_String. cbn [format_from].
    destruct (match_here (String c (pre +:+ m))) as [k|]; cbn [String.length].
    + pose proof (spaced_length _ _ (format_from_spaced (pre +:+ m) k)). lia.
    + lia.
Qed.

Lemma no_match_unchanged s : ~ has_match s -> format_from O s = s.
Proof.
  induction s as [|c s IH]; intros Hno; [done|]. cbn [format_from].
  destruct (match_here (String c s)) as [n|] eqn:Hm.
  - destruct Hno. by exists "", (String c s), n.
  - f_equal. apply IH. intros H. by apply Hno, has_match_cons.
Qed.

(** X4: [formatDiagram] returns the text as it is exactly when its pattern (a
    code unit other than a colon, a line feed, white space, a dash) matches
    nowhere in it. *)
Theorem formatDiagram_unchanged_iff (s : string) :
  formatDiagram s = s <-> ~ has_match s.
Proof.
  split.
  - intros Heq Hm. apply has_match_longer in Hm.
    unfold formatDiagram in Heq. rewrite Heq in Hm. lia.
  - apply no_match_unchanged.
Qed.

(** While the rest of a match is copied, the white space and the dash of
    the match stay where they are. *)
Lemma format_from_copies rest :
  forall k hold, spaces rest = k -> (k < hold)%nat ->
    starts_with "-" (drop k rest) = true ->
    spaces (format_from hold rest) = k
    /\ starts_with "-" (drop k (format_from hold rest)) = true.
Proof.
  induction rest as [|d rest IH]; intros k hold Hk Hhold Hdash.
  - simpl in Hk. subst k. done.
  - destruct hold as [|h]; [lia|]. cbn [format_from spaces] in *.
    destruct (is_space d) eqn:Hd.
    + destruct k as [|k]; [done|]. injection Hk as Hk. cbn [drop] in *.
      destruct (IH k h Hk ltac:(lia) Hdash) as [-> Hdash']. done.
    + subst k. cbn [drop] in *. split; [done|].
      cbn [starts_with] in *. by destruct (Ascii.eqb "-" d).
Qed.

Lemma is_space_line_feed : is_space (ascii_of_nat 10) = true.
Proof. reflexivity. Qed.

(** Where the pattern matched, it matches again in the result: the line
    feed that was added is white space in front of the dash. *)
Lemma changed_has_match s : format_from O s <> s -> has_match (format_from O s).
Proof.
  induction s as [|c s IH]; intros Hne; [done|]. cbn [format_from] in *.
  destruct (match_here (String c s)) as [n|] eqn:Hm.
  - exists "", (String c (String (ascii_of_nat 10) (format_from n s))).
    unfold match_here in Hm. destruct s as [|nl rest]; [done|].
    destruct (negb (c =? ":")%char) eqn:Hc; [|done].
    destruct (Ascii.eqb_spec nl (ascii_of_nat 10)) as [->|]; [|done].
    destruct (Nat.ltb_spec 0 (spaces rest)) as [Hpos|]; [|done].
    destruct (starts_with "-" (drop (spaces rest) rest)) eqn:Hdash; [|done].
    injection Hm as <-. cbn [format_from].
    destruct (format_from_copies rest (spaces rest) (S (spaces rest)) eq_refl
                ltac:(lia) Hdash) as [Hk Hdash'].
    exists (S (S (S (spaces rest)))). split; [done|].
    unfold match_here. rewrite Hc. cbn [spaces]. rewrite is_space_line_feed, Hk.
    cbn [drop]. rewrite Hdash'. by rewrite Ascii.eqb_refl.
  - apply has_match_cons, IH. congruence.
Qed.

(** X5: [formatDiagram] is not idempotent on any text it changes: formatting the
    result again adds line feeds again. *)
Theorem formatDiagram_changes_again (s : string) :
  formatDiagram s <> s ->
  formatDiagram (formatDiagram s) <> formatDiagram s.
Proof.
  intros Hne Heq. apply changed_has_match, has_match_longer in Hne.
  unfold formatDiagram in Heq. rewrite Heq in Hne. lia.
Qed.

Lemma formatDiagram_changes_again_witness :
  formatDiagram ("a" +:+ newline +:+ " -") <> "a" +:+ newline +:+ " -"
  /\ formatDiagram (formatDiagram ("a" +:+ newline +:+ " -"))
     <> formatDiagram ("a" +:+ newline +:+ " -").
Proof.
  assert (formatDiagram ("a" +:+ newline +:+ " -") <> "a" +:+ newline +:+ " -") as H
    by (vm_compute; discriminate).
  split; [exact H | exact (formatDiagram_changes_again _ H)].
Defined.

End Formatting.

(** ** The Key Extractor, once more *)

Section KeyDeterminism.

Lemma bind_Throw {A B : Type} (r : result A) (f : A -> result B) (e : exn) :
  r ≫= f = Throw e -> r = Throw e \/ exists a, r = Ok a /\ f a = Throw e.
Proof. destruct r as [a|e']; [right; eauto | intros [= ->]; by left]. Qed.

(** X6: Two mappings that agree on the named fields have the same key, whatever
    their other fields hold. *)
Theorem sortKey_depends_on_props (fields1 fields2 : list (string * value))
    (props : list string) :
  (forall p, p ∈ props -> own fields1 p = own fields2 p) ->
  sortKey (VObj fields1) props = sortKey (VObj fields2) props.
Proof.
  intros Hsame. unfold sortKey.
  assert (mapR (get (VObj fields1)) props = mapR (get (VObj fields2)) props) as ->;
    [|done].
  induction props as [|p props IH]; [done|]. cbn [mapR].
  rewrite IH by (intros q Hq; apply Hsame; by right).
  unfold get. by rewrite (Hsame p) by (by left).
Qed.

Lemma sortKey_depends_on_props_witness :
  sortKey (VObj [("name", VStr "db"); ("description", VStr "stores orders")]) ["name"]
  = sortKey (VObj [("tags", VStr "sql"); ("name", VStr "db")]) ["name"].
Proof.
  apply sortKey_depends_on_props.
  intros p Hp. apply list_elem_of_singleton in Hp as ->. reflexivity.
Defined.

Lemma ToString_throws v : forall e, ToString v = Throw e -> e = TypeError.
Proof.
  induction v as [| | | |items IH|fields IH] using value_children_ind;
    intros e H; simpl in H; try discriminate.
  - match type of H with
    | (?F items ≫= _) = _ =>
        assert (forall l, Forall (fun v => forall e, ToString v = Throw e -> e = TypeError) l ->
                  forall e', F l = Throw e' -> e' = TypeError) as Hin
    end.
    { clear. induction l as [|x l IHl]; intros Hall e' Hl; [discriminate|].
      apply Forall_cons in Hall as [Hx Hall].
      apply bind_Throw in Hl as [Hl|(s & _ & Hl)].
      - destruct x; try discriminate; by apply Hx.
      - apply bind_Throw in Hl as [Hl|(ss & _ & Hl)]; [by apply IHl | discriminate]. }
    apply bind_Throw in H as [H|(segs & _ & H)]; [by apply (Hin items) | discriminate].
  - destruct (own fields "toString"); [by injection H as <- | discriminate].
Qed.

Lemma sortKey_throws item props e : sortKey item props = Throw e -> e = TypeError.
Proof.
  unfold sortKey. intros H.
  apply bind_Throw in H as [H|(values & _ & H)].
  - revert e H. induction props as [|p props IH]; intros e H; [discriminate|].
    cbn [mapR] in H. apply bind_Throw in H as [H|(x & _ & H)].
    + destruct item; try discriminate. by injection H as <-.
      simpl in H. by destruct (own fields p).
    + apply bind_Throw in H as [H|(xs & _ & H)]; [by apply IH | discriminate].
  - apply bind_Throw in H as [H|(segs & _ & H)]; [|discriminate].
    clear -H. revert e H. induction values as [|x values IH]; intros e H; [discriminate|].
    cbn [mapR] in H. apply bind_Throw in H as [H|(y & _ & H)].
    + destruct x as [|v|text]; try discriminate.
      destruct v; try discriminate; by apply (ToString_throws _ _ H).
    + apply bind_Throw in H as [H|(ys & _ & H)]; [by apply IH | discriminate].
Qed.

End KeyDeterminism.

(** ** The order table, once more *)

Section OrderTable.

Lemma ordering_reduce_last selected props : forall ks index acc order,
  keys_of selected props = Ok ks ->
  ordering_reduce selected props index acc = Ok order ->
  (forall (j : nat) k, ks !! j = Some k -> k <> "__proto__" ->
     (forall j' : nat, (j < j')%nat -> ks !! j' <> Some k) ->
     order !! k = Some (index + Z.of_nat j))
  /\ (forall k, k ∉ ks -> order !! k = acc !! k)
  /\ order !! "__proto__" = acc !! "__proto__".
Proof.
  induction selected as [|x selected IH]; intros ks index acc order Hks Hord.
  - injection Hks as <-. injection Hord as <-. split; [|done].
    intros j k Hj. by rewrite lookup_nil in Hj.
  - unfold keys_of in Hks. cbn [mapR] in Hks.
    apply bind_Ok in Hks as (k0 & Hk0 & Hks).
    apply bind_Ok in Hks as (ks' & Hks' & Hks). injection Hks as <-.
    cbn [ordering_reduce] in Hord. rewrite Hk0, Ok_bind in Hord.
    destruct (IH ks' _ _ _ Hks' Hord) as (Hlast & Hout & Hproto).
    assert (forall k, k <> k0 -> assign acc k0 index !! k = acc !! k) as Hother.
    { intros k Hk. unfold assign. destruct (k0 =? "__proto__")%string; [done|].
      by rewrite lookup_insert_ne. }
    split; [|split].
    + intros [|j] k Hj Hk Hlater; simpl in Hj.
      * injection Hj as ->. rewrite Hout.
        -- unfold assign. destruct (String.eqb_spec k "__proto__"); [done|].
           rewrite lookup_insert_eq. f_equal. lia.
        -- intros Hin. apply list_elem_of_lookup in Hin as [j' Hj'].
           by apply (Hlater (S j')); [lia|].
      * rewrite (Hlast j k Hj Hk); [f_equal; lia|].
        intros j' Hlt. apply (Hlater (S j')). lia.
    + intros k Hk. apply not_elem_of_cons in Hk as [Hne Hk].
      by rewrite (Hout _ Hk), Hother.
    + rewrite Hproto. unfold assign.
      destruct (String.eqb_spec k0 "__proto__") as [->|Hne]; [done|].
      by rewrite lookup_insert_ne.
Qed.

(** X7: The table [ordering] builds maps every key to the index of the last
    selected node that has it (a later node overwrites an earlier one), holds
    no other entry, and never holds the key [__proto__]. *)
Theorem ordering_last_wins (selected : list value) (props ks : list string)
    (order : gmap string Z) :
  keys_of selected props = Ok ks ->
  ordering_reduce selected props 0 ∅ = Ok order ->
  (forall (j : nat) k, ks !! j = Some k -> k <> "__proto__" ->
     (forall j' : nat, (j < j')%nat -> ks !! j' <> Some k) ->
     order !! k = Some (Z.of_nat j))
  /\ (forall k, k ∉ ks -> order !! k = None)
  /\ order !! "__proto__" = None.
Proof.
  intros Hks Hord.
  destruct (ordering_reduce_last _ _ _ _ _ _ Hks Hord) as (Hlast & Hout & Hproto).
  split; [|split].
  - intros j k Hj Hk Hlater. by rewrite (Hlast j k Hj Hk Hlater).
  - intros k Hk. by rewrite (Hout k Hk).
  - by rewrite Hproto.
Qed.

Lemma ordering_last_wins_witness :
  exists order,
    ordering_reduce [element "A"; element "B"; element "A"] ["name"] 0 ∅ = Ok order
    /\ order !! "A" = Some 2 /\ order !! "B" = Some 1 /\ order !! "C" = None.
Proof.
  exists {[ "A" := 2; "B" := 1 ]}.
  assert (ordering_reduce [element "A"; element "B"; element "A"] ["name"] 0 ∅
          = Ok {[ "A" := 2; "B" := 1 ]}) as Hord by reflexivity.
  destruct (ordering_last_wins [element "A"; element "B"; element "A"] ["name"]
              ["A"; "B"; "A"] _ eq_refl Hord) as (Hlast & Hout & _).
  split; [exact Hord|]. split; [|split].
  - apply (Hlast 2%nat "A"); [reflexivity | discriminate |].
    intros j' Hlt. by rewrite lookup_ge_None_2 by (simpl; lia).
  - apply (Hlast 1%nat "B"); [reflexivity | discriminate |].
    intros [|[|[|j']]] Hlt; simpl; try lia; discriminate.
  - apply Hout. by_computation.
Defined.

End OrderTable.

(** ** The Reorderer, once more *)

Section SortAgain.

Context {A : Type} (cmp : A -> A -> result Z) (rank : A -> Z) (P : A -> Prop).

Hypothesis cmp_rank : forall a b, P a -> P b ->
  cmp a b = Ok (if rank a <? rank b then -1 else if rank b <? rank a then 1 else 0).

Lemma ascending_in_order l : Forall P l -> ascending rank l -> in_order cmp l.
Proof.
  intros Hall Hasc. induction Hasc as [|x l Hasc IH Hle]; [done|].
  apply Forall_cons in Hall as [Hx Hall]. specialize (IH Hall).
  destruct l as [|y l]; [done|]. split; [|done].
  apply Forall_cons in Hall as [Hy _]. apply Forall_cons in Hle as [Hxy _].
  rewrite (cmp_rank x y Hx Hy). eexists. split; [done|].
  destruct (Z.ltb_spec (rank x) (rank y)); [lia|].
  destruct (Z.ltb_spec (rank y) (rank x)); lia.
Qed.

End SortAgain.

Section SortThrows.

Context {A : Type} (cmp : A -> A -> result Z) (P : A -> Prop).

Hypothesis P_dec : forall a, {P a} + {~ P a}.
Hypothesis cmp_returns : forall a b, P a -> P b -> exists c, cmp a b = Ok c.
Hypothesis cmp_throws : forall a b, ~ P a \/ ~ P b -> cmp a b = Throw TypeError.

(** Every item takes part in a comparison once there are two of them. *)
Lemma array_sort_throws l :
  (2 <= length l)%nat -> Exists (fun a => ~ P a) l ->
  array_sort cmp l = Throw TypeError.
Proof.
  induction l as [|x rest IH]; intros Hlen Hex; [simpl in Hlen; lia|].
  cbn [array_sort].
  destruct (Forall_Exists_dec P (fun a => ~ P a) P_dec rest) as [Hall|Hrest].
  - apply Exists_cons in Hex as [Hx|Hex].
    2: { apply Exists_exists in Hex as (y & Hy & Hny).
         destruct Hny. by apply (proj1 (Forall_forall _ _) Hall). }
    destruct (array_sort_returns cmp P rest cmp_returns Hall) as [sorted Hsorted].
    rewrite Hsorted, Ok_bind.
    destruct sorted as [|y sorted].
    + apply array_sort_perm, Permutation_length in Hsorted. simpl in *. lia.
    + cbn [sort_insert]. by rewrite cmp_throws by (by left).
  - destruct rest as [|y [|z rest]].
    + by apply Exists_nil in Hrest.
    + apply Exists_cons in Hrest as [Hy|Hnil]; [|by apply Exists_nil in Hnil].
      cbn. by rewrite cmp_throws by (by right).
    + by rewrite IH by (simpl; lia || done).
Qed.

End SortThrows.

Section ReorderAgain.

Lemma orderApply_rank order props a b :
  (exists k, sortKey a props = Ok k /\ faithful order k) ->
  (exists k, sortKey b props = Ok k /\ faithful order k) ->
  orderApply a b order props
  = Ok (if node_position order props a <? node_position order props b then -1
        else if node_position order props b <? node_position order props a then 1
        else 0).
Proof.
  intros (ka & Ha & Hka) (kb & Hb & Hkb).
  unfold orderApply, node_position. rewrite Ha, Hb, !Ok_bind.
  rewrite (position_of_faithful _ _ Hka), (position_of_faithful _ _ Hkb). cbn.
  by repeat destruct (_ <? _).
Qed.

(** X8: The Reorderer is idempotent: reordering its own result under the same
    table changes nothing (for keys that have an entry in the table or are
    no inherited names). *)
Theorem reorder_idempotent (collection out : list value) (order : gmap string Z)
    (props : list string) :
  Forall (fun item => exists k, sortKey item props = Ok k /\ faithful order k)
         collection ->
  reorder collection order props = Ok out ->
  reorder out order props = Ok out.
Proof.
  intros Hall Hout.
  destruct (array_sort_stable _ (node_position order props) _
              (orderApply_rank order props) collection Hall)
    as (out' & Hout' & Hperm & Hasc & _).
  unfold reorder in *. rewrite Hout in Hout'. injection Hout' as <-.
  apply array_sort_in_order.
  apply (ascending_in_order _ (node_position order props) _
           (orderApply_rank order props)); [by rewrite Hperm | done].
Qed.

Lemma reorder_idempotent_witness :
  reorder [element "Y"; element "X"; element "Z"] {[ "Y" := 0; "X" := 1 ]} ["name"]
  = Ok [element "Y"; element "X"; element "Z"].
Proof.
  apply (reorder_idempotent [element "X"; element "Y"; element "Z"]).
  - repeat constructor; eexists; (split; [reflexivity|]); faithful_key.
  - reflexivity.
Defined.

(** X9: A collection of two or more nodes one of which has no key (a [null]
    item, a name without a string form) makes the Reorderer throw a
    [TypeError]. *)
Theorem reorder_throws_without_key (collection : list value)
    (order : gmap string Z) (props : list string) :
  (2 <= length collection)%nat ->
  Exists (fun item => ~ keyed props item) collection ->
  reorder collection order props = Throw TypeError.
Proof.
  apply (array_sort_throws _ (keyed props)).
  - intros item. unfold keyed. destruct (sortKey item props) as [k|e].
    + left. eauto.
    + right. by intros [k Hk].
  - intros a b. apply orderApply_returns.
  - intros a b H. unfold orderApply, keyed in *.
    destruct (sortKey a props) as [ka|ea] eqn:Ha.
    + destruct (sortKey b props) as [kb|eb] eqn:Hb.
      * destruct H as [H|H]; destruct H; eauto.
      * by rewrite (sortKey_throws _ _ _ Hb).
    + by rewrite (sortKey_throws _ _ _ Ha).
Qed.

Lemma reorder_throws_without_key_witness :
  reorder [element "X"; VNull] ∅ ["name"] = Throw TypeError.
Proof.
  apply reorder_throws_without_key; [simpl; lia|].
  apply Exists_cons_tl, Exists_cons_hd. by intros [k Hk].
Defined.

End ReorderAgain.

(** ** What the Document Normalizer changes *)

Section Rearranging.

Variable StringToNumber : string -> option Z.

Lemma forEach_rearranges body refs : forall follow st st',
  (forall r s s' f, body r s = Ok (s', f) -> rearranged (actual s) (actual s')) ->
  forEach body refs follow st = Ok st' -> rearranged (actual st) (actual st').
Proof.
  induction refs as [|r refs IH]; intros follow st st' Hbody H.
  - injection H as <-. apply rtc_refl.
  - cbn [forEach] in H. apply bind_Ok in H as ([s f] & Hstep & H).
    apply IH in H; [|done]. apply Hbody in Hstep.
    by etrans.
Qed.

Lemma sort_tracked_perm {A : Type} (cmp : A -> A -> result Z) xs moved :
  sort_tracked cmp xs = Ok moved -> moved.*2 ≡ₚ xs.
Proof.
  intros H. apply array_sort_perm in H. rewrite H.
  by replace ((imap pair xs).*2) with xs
    by (symmetry; exact (imap_snd (fun i => i) xs)).
Qed.

Lemma sort_rearranges path prop from initialJsonPath props st st' :
  sort StringToNumber Actual path prop from initialJsonPath props st = Ok st' ->
  rearranged (actual st) (actual st').
Proof.
  unfold sort. intros H. apply bind_Ok in H as (targets & _ & H).
  revert H. apply forEach_rearranges. clear. intros r s s' f H.
  destruct (lookup_at r (read s Actual)) as [el|] eqn:Hr;
    [|injection H as <- _; apply rtc_refl].
  apply bind_Ok in H as (path & _ & H). apply bind_Ok in H as (order & _ & H).
  destruct el as [| | | | |fields]; try discriminate.
  destruct (field_index fields prop) as [i|] eqn:Hi; [|discriminate].
  destruct (own fields prop) as [[| | | |items|]|] eqn:Hown; try discriminate.
  apply bind_Ok in H as (moved & Hmoved & H). injection H as <- _.
  apply rtc_once. exists (r ++ [i]), items, (moved.*2).
  split; [|split; [by apply sort_tracked_perm in Hmoved | done]].
  simpl in Hr. rewrite lookup_at_app, Hr. cbn. rewrite list_lookup_fmap.
  by rewrite (field_index_own _ _ _ _ Hi Hown).
Qed.

Lemma sort_diagram_rearranged (initialDiagram actualDiagram out : value) :
  sortDiagram StringToNumber initialDiagram actualDiagram = Ok out ->
  rearranged actualDiagram out.
Proof.
  unfold sortDiagram, sortDiagram_passes. intros H.
  apply bind_Ok in H as (st3 & H & Hout). injection Hout as <-.
  apply bind_Ok in H as (st1 & H1 & H). apply bind_Ok in H as (st2 & H2 & H3).
  apply sort_rearranges in H1, H2, H3. simpl in *.
  by repeat (etrans; [eassumption|]).
Qed.

(** X10: [sortDiagram] only reorders: its result is the target tree with the
    items of some of its sequences permuted; it adds, drops and alters no
    node, whatever the reference holds. *)
Theorem sortDiagram_rearranges (initialDiagram actualDiagram out : value) :
  sortDiagram StringToNumber initialDiagram actualDiagram = Ok out ->
  rearranged actualDiagram out.
Proof. apply sort_diagram_rearranged. Qed.

End Rearranging.

Lemma sortDiagram_rearranges_witness :
  rearranged target_XYZ (document [element "Y"; element "X"; element "Z"] []).
Proof.
  apply (sortDiagram_rearranges (fun _ => None) reference_YX). reflexivity.
Defined.

Section RearrangedInvariants.

Lemma forallb_perm {A : Type} (g : A -> bool) l1 l2 :
  l1 ≡ₚ l2 -> forallb g l1 = forallb g l2.
Proof.
  induction 1 as [|x l1 l2 _ IH|x y l|l1 l2 l3 _ IH1 _ IH2]; simpl.
  - done.
  - by rewrite IH.
  - by destruct (g x), (g y).
  - by rewrite IH1.
Qed.

Lemma sum_perm {A : Type} (g : A -> nat) l1 l2 :
  l1 ≡ₚ l2 -> sum_list_with g l1 = sum_list_with g l2.
Proof.
  induction 1 as [|x l1 l2 _ IH|x y l|l1 l2 l3 _ IH1 _ IH2]; simpl; lia.
Qed.

Lemma forallb_alter {A : Type} (g : A -> bool) (u : A -> A) l (i : nat) x :
  l !! i = Some x -> g (u x) = g x -> forallb g (alter u i l) = forallb g l.
Proof.
  revert i. induction l as [|y l IH]; intros [|i] Hi Hg; simpl in *; try done.
  - injection Hi as ->. by rewrite Hg.
  - f_equal. by apply IH.
Qed.

Lemma sum_alter {A : Type} (g : A -> nat) (u : A -> A) l (i : nat) x :
  l !! i = Some x -> g (u x) = g x ->
  sum_list_with g (alter u i l) = sum_list_with g l.
Proof.
  revert i. induction l as [|y l IH]; intros [|i] Hi Hg; simpl in *; try done.
  - injection Hi as ->. by rewrite Hg.
  - f_equal. by apply IH.
Qed.

Lemma update_at_permuted l : forall v items items',
  lookup_at l v = Some (VArr items) -> items' ≡ₚ items ->
  clean (update_at l (fun _ => VArr items') v) = clean v
  /\ is_empty (update_at l (fun _ => VArr items') v) = is_empty v
  /\ size_of (update_at l (fun _ => VArr items') v) = size_of v.
Proof.
  induction l as [|i l IH]; intros v items items' Hv Hperm; simpl in Hv.
  - injection Hv as ->. simpl. split; [by apply forallb_perm|]. split; [done|].
    f_equal. by apply sum_perm.
  - destruct v as [| | | |xs|fields]; simpl in Hv; try done.
    + destruct (xs !! i) as [x|] eqn:Hx; [|done]. simpl in Hv.
      destruct (IH x items items' Hv Hperm) as (Hclean & Hempty & Hsize).
      cbn [update_at clean is_empty size_of]. split; [|split; [done|]].
      * apply (forallb_alter _ _ _ _ x Hx). by rewrite Hclean, Hempty.
      * f_equal. by apply (sum_alter _ _ _ _ x Hx).
    + rewrite list_lookup_fmap in Hv.
      destruct (fields !! i) as [[k x]|] eqn:Hx; [|done]. simpl in Hv.
      destruct (IH x items items' Hv Hperm) as (Hclean & Hempty & Hsize).
      cbn [update_at clean is_empty size_of]. split; [|split; [done|]].
      * apply (forallb_alter _ _ _ _ (k, x) Hx). cbn. by rewrite Hclean, Hempty.
      * f_equal. by apply (sum_alter _ _ _ _ (k, x) Hx).
Qed.

Lemma rearranged_invariants v v' :
  rearranged v v' -> clean v' = clean v /\ size_of v' = size_of v.
Proof.
  induction 1 as [|v w v' (l & items & items' & Hl & Hperm & ->) _ [IH1 IH2]]; [done|].
  destruct (update_at_permuted l v items items' Hl Hperm) as (Hclean & _ & Hsize).
  split; congruence.
Qed.

(** X11: Reordering keeps what pruning achieved, and no more: the result of
    [sortDiagram] holds a [null] or empty-string property exactly when the
    target did, and it has as many nodes as the target. *)
Theorem sortDiagram_keeps_clean (StringToNumber : string -> option Z)
    (initialDiagram actualDiagram out : value) :
  sortDiagram StringToNumber initialDiagram actualDiagram = Ok out ->
  clean out = clean actualDiagram /\ size_of out = size_of actualDiagram.
Proof.
  intros H. by apply rearranged_invariants, (sort_diagram_rearranged StringToNumber initialDiagram).
Qed.

End RearrangedInvariants.

Lemma sortDiagram_keeps_clean_witness :
  clean (document [element "Y"; element "X"; element "Z"] []) = clean target_XYZ
  /\ size_of (document [element "Y"; element "X"; element "Z"] [])
     = size_of target_XYZ.
Proof.
  apply (sortDiagram_keeps_clean (fun _ => None) reference_YX target_XYZ).
  reflexivity.
Defined.

(** ** The exceptions of the Document Normalizer *)

Section Exceptions.

Variable StringToNumber : string -> option Z.

Lemma sort_insert_throws {A : Type} (cmp : A -> A -> result Z) x l e :
  sort_insert cmp x l = Throw e -> exists a b, cmp a b = Throw e.
Proof.
  induction l as [|y l IH]; intros H; [discriminate|]. cbn [sort_insert] in H.
  apply bind_Throw in H as [H|(c & _ & H)]; [eauto|].
  destruct (c <=? 0); [discriminate|].
  apply bind_Throw in H as [H|(r & _ & H)]; [by apply IH | discriminate].
Qed.

Lemma array_sort_throws_cmp {A : Type} (cmp : A -> A -> result Z) l e :
  array_sort cmp l = Throw e -> exists a b, cmp a b = Throw e.
Proof.
  induction l as [|x l IH]; intros H; [discriminate|]. cbn [array_sort] in H.
  apply bind_Throw in H as [H|(sorted & _ & H)]; [by apply IH|].
  by apply sort_insert_throws in H.
Qed.

Lemma orderApply_throws a b order props e :
  orderApply a b order props = Throw e -> e = TypeError.
Proof.
  unfold orderApply. intros H.
  apply bind_Throw in H as [H|(ka & _ & H)]; [by apply sortKey_throws in H|].
  apply bind_Throw in H as [H|(kb & _ & H)]; [by apply sortKey_throws in H|].
  by repeat destruct (js_lt _ _).
Qed.

Lemma ordering_reduce_throws selected props : forall index acc e,
  ordering_reduce selected props index acc = Throw e -> e = TypeError.
Proof.
  induction selected as [|x selected IH]; intros index acc e H; [discriminate|].
  cbn [ordering_reduce] in H.
  apply bind_Throw in H as [H|(k & _ & H)]; [by apply sortKey_throws in H|].
  by apply IH in H.
Qed.

Lemma ordering_throws item path props e :
  is_tree item -> ordering StringToNumber item path props = Throw e -> e = TypeError.
Proof.
  intros Htree H. unfold ordering in H. rewrite (nodes_walk _ _ _ Htree), Ok_bind in H.
  by apply ordering_reduce_throws in H.
Qed.

Lemma permuted_at_tree v v' : is_tree v -> permuted_at v v' -> is_tree v'.
Proof.
  intros Hv (l & items & items' & Hl & _ & ->).
  destruct l as [|i l]; [done|]. by destruct v.
Qed.

Lemma forEach_outcome body refs : forall follow st,
  (forall r s, trees s ->
     match body r s with
     | Ok (s', _) => trees s' /\ initial s' = initial s
                     /\ rearranged (actual s) (actual s')
     | Throw e => e = TypeError
     end) ->
  trees st ->
  match forEach body refs follow st with
  | Ok st' => trees st' /\ initial st' = initial st
              /\ rearranged (actual st) (actual st')
  | Throw e => e = TypeError
  end.
Proof.
  induction refs as [|r refs IH]; intros follow st Hbody Hst.
  - cbn [forEach]. split; [done|]. split; [done|apply rtc_refl].
  - cbn [forEach]. pose proof (Hbody (follow r) st Hst) as Hvisit.
    destruct (body (follow r) st) as [[st1 f]|e]; [|done].
    rewrite Ok_bind. cbn [fst snd].
    destruct Hvisit as (Hst1 & Hinit & Hre).
    specialize (IH (fun q => f (follow q)) st1 Hbody Hst1).
    destruct (forEach body refs _ st1) as [st'|e]; [|done].
    destruct IH as (Hst' & Hinit' & Hre').
    split; [done|]. split; [congruence | by etrans].
Qed.

(** One visit of [sort]: what it returns and what it throws. *)
Lemma sort_visit prop from initialJsonPath props r st :
  (forall el e, initialJsonPath el = Throw e -> e = TypeError) ->
  trees st ->
  match
    match lookup_at r (read st Actual) with
    | None => Ok (st, id)
    | Some element =>
        path ← initialJsonPath element;
        order ← ordering StringToNumber (read st from) path props;
        match element with
        | VObj fields =>
            match field_index fields prop, own fields prop with
            | Some i, Some (VArr items) =>
                moved ← sort_tracked (fun a b => orderApply a b order props) items;
                let at_ := r ++ [i] in
                Ok (write st Actual
                      (update_at at_ (fun _ => VArr (moved.*2)) (read st Actual)),
                    relocate at_ (moved.*1))
            | _, _ => Throw TypeError
            end
        | _ => Throw TypeError
        end
    end
  with
  | Ok (st', _) => trees st' /\ initial st' = initial st
                   /\ rearranged (actual st) (actual st')
  | Throw e => e = TypeError
  end.
Proof.
  intros Hpath [Hi Ha].
  destruct (lookup_at r (read st Actual)) as [el|] eqn:Hr;
    [|split; [done|split; [done|apply rtc_refl]]].
  destruct (initialJsonPath el) as [p|e] eqn:Hp; [|by apply (Hpath el)].
  rewrite Ok_bind.
  destruct (ordering StringToNumber (read st from) p props) as [order|e] eqn:Hord.
  2: { apply (ordering_throws _ _ _ _) in Hord; [done|]. by destruct from. }
  rewrite Ok_bind.
  destruct el as [| | | | |fields]; try done.
  destruct (field_index fields prop) as [i|] eqn:Hfi; [|done].
  destruct (own fields prop) as [[| | | |items|]|] eqn:Hown; try done.
  destruct (sort_tracked (fun a b => orderApply a b order props) items)
    as [moved|e] eqn:Hmoved.
  - rewrite Ok_bind. cbn zeta.
    assert (permuted_at (actual st)
              (update_at (r ++ [i]) (fun _ => VArr (moved.*2)) (actual st))) as Hperm.
    { exists (r ++ [i]), items, (moved.*2).
      split; [|split; [by apply sort_tracked_perm in Hmoved | done]].
      simpl in Hr. rewrite lookup_at_app, Hr. cbn. rewrite list_lookup_fmap.
      by rewrite (field_index_own _ _ _ _ Hfi Hown). }
    simpl. split; [split; [done|by apply (permuted_at_tree _ _ Ha)]|].
    split; [done|]. by apply rtc_once.
  - cbn. unfold sort_tracked in Hmoved.
    apply array_sort_throws_cmp in Hmoved as (a & b & Hcmp).
    by apply orderApply_throws in Hcmp.
Qed.

Lemma sort_exceptions path prop from initialJsonPath props st :
  (forall el e, initialJsonPath el = Throw e -> e = TypeError) ->
  trees st ->
  match sort StringToNumber Actual path prop from initialJsonPath props st with
  | Ok st' => trees st' /\ initial st' = initial st
              /\ rearranged (actual st) (actual st')
  | Throw e => e = TypeError
  end.
Proof.
  intros Hpath Hst. unfold sort.
  rewrite (nodes_walk _ _ _ (proj2 Hst)), Ok_bind.
  apply forEach_outcome; [|done].
  intros r s Hs. by apply sort_visit.
Qed.

End Exceptions.

Section DiagramExceptions.

Variable StringToNumber : string -> option Z.





End DiagramExceptions.

(** ** The two collections the Document Normalizer needs *)

Section NeededCollections.

Variable StringToNumber : string -> option Z.

Lemma update_at_is_sequence l items' : forall v items,
  lookup_at l v = Some (VArr items) ->
  is_sequence (update_at l (fun _ => VArr items') v) = is_sequence v.
Proof.
  destruct l as [|i l]; intros v items H.
  - by injection H as ->.
  - by destruct v.
Qed.

Lemma sequence_field_alter (u : value -> value) k : forall fields i,
  (forall x, fields.*2 !! i = Some x -> is_sequence (u x) = is_sequence x) ->
  sequence_field (alter (fun kv => (kv.1, u kv.2)) i fields) k
  = sequence_field fields k.
Proof.
  unfold sequence_field.
  induction fields as [|[k' v] fields IH]; intros i Hu; [done|].
  destruct i as [|i]; cbn [alter list_alter own fst snd].
  - destruct (String.eqb k' k); [|done]. by apply Hu.
  - destruct (String.eqb k' k); [done|]. apply IH. intros x Hx. by apply Hu.
Qed.

Lemma permuted_at_fields fields v' :
  permuted_at (VObj fields) v' ->
  exists fields', v' = VObj fields'
    /\ forall k, sequence_field fields' k = sequence_field fields k.
Proof.
  intros (l & items & items' & Hl & _ & ->).
  destruct l as [|i l]; [discriminate|].
  cbn [lookup_at kids] in Hl.
  destruct (fields.*2 !! i) as [x|] eqn:Hx; [|discriminate]. cbn in Hl.
  eexists. split; [reflexivity|]. intros k.
  apply sequence_field_alter. intros x' Hx'.
  assert (x' = x) as -> by congruence.
  by apply (update_at_is_sequence _ _ _ items).
Qed.

Lemma rearranged_fields v v' :
  rearranged v v' -> forall fields, v = VObj fields ->
  exists fields', v' = VObj fields'
    /\ forall k, sequence_field fields' k = sequence_field fields k.
Proof.
  induction 1 as [v|v v1 v' Hstep _ IH]; intros fields ->.
  - by exists fields.
  - apply permuted_at_fields in Hstep as (fields1 & -> & H1).
    destruct (IH fields1 eq_refl) as (fields' & -> & H').
    exists fields'. split; [done|]. intros k. by rewrite H', H1.
Qed.

Lemma sort_needs_sequence prop from initialJsonPath props st fields :
  (forall el e, initialJsonPath el = Throw e -> e = TypeError) ->
  trees st -> actual st = VObj fields -> sequence_field fields prop = false ->
  sort StringToNumber Actual [] prop from initialJsonPath props st = Throw TypeError.
Proof.
  intros Hpath Hst Ha Hseq. unfold sort.
  rewrite (nodes_walk _ _ _ (proj2 Hst)), Ok_bind.
  cbn [read]. rewrite Ha. cbn [walk fold_left fmap list_fmap fst forEach id].
  cbn [lookup_at read]. rewrite Ha.
  destruct (initialJsonPath (VObj fields)) as [p|e] eqn:Hp;
    [|by rewrite (Hpath _ _ Hp)].
  rewrite Ok_bind.
  destruct (ordering StringToNumber _ p props) as [order|e] eqn:Hord.
  2: { apply ordering_throws in Hord as ->; [done|]. destruct Hst. by destruct from. }
  rewrite Ok_bind. unfold sequence_field in Hseq.
  destruct (field_index fields prop); [|done].
  by destruct (own fields prop) as [[| | | | |]|].
Qed.

(** X13: The target document must hold both top-level collections: a target
    mapping whose [elements] or [relationships] field is missing or is not
    a sequence makes [sortDiagram] throw a [TypeError], whatever the
    reference tree holds. *)
Theorem sortDiagram_needs_collections (initialDiagram : value)
    (fields : list (string * value)) :
  is_tree initialDiagram ->
  sequence_field fields "elements" = false
  \/ sequence_field fields "relationships" = false ->
  sortDiagram StringToNumber initialDiagram (VObj fields) = Throw TypeError.
Proof.
  intros Hi Hseq. unfold sortDiagram, sortDiagram_passes.
  assert (trees (Store initialDiagram (VObj fields))) as Hst by done.
  match goal with |- context [sort _ _ ?p ?f ?r ?ip ?ps ?st] =>
    pose proof (sort_exceptions StringToNumber p f r ip ps st) as H1;
    pose proof (sort_needs_sequence f r ip ps st fields) as N1 end.
  destruct Hseq as [He|Hr].
  - by rewrite N1.
  - clear N1. destruct (sort _ _ _ "elements" _ _ _ _) as [st1|e].
    2: { by rewrite H1. }
    destruct H1 as (Hst1 & _ & Hre); [done..|]. rewrite Ok_bind.
    destruct (rearranged_fields _ _ Hre fields eq_refl) as (fields1 & Ha1 & Hsame).
    rewrite (sort_needs_sequence _ _ _ _ st1 fields1); [done|done|done|done|].
    by rewrite Hsame.
Qed.

End NeededCollections.

Lemma sortDiagram_needs_collections_witness :
  sortDiagram (fun _ => None) reference_YX
    (VObj [("elements", VArr [element "X"; element "Y"])]) = Throw TypeError.
Proof.
  apply (sortDiagram_needs_collections (fun _ => None) reference_YX
           [("elements", VArr [element "X"; element "Y"])]).
  - exact I.
  - right. reflexivity.
Defined.

(** ** The Empty-Value Pruner, once more *)

Section PrunerAgain.

Local Open Scope nat_scope.

(** X14: The pruner returns on every tree, and what it returns is no larger and
    of the same kind: the calls it makes on children and on shortened
    sequences come to an end, a sequence stays a sequence and a mapping a
    mapping. *)
Theorem removeEmptyElements_returns_no_larger (obj : value) :
  exists v, removeEmptyElements obj = Some v
    /\ size_of v <= size_of obj
    /\ is_sequence v = is_sequence obj
    /\ is_object v = is_object obj.
Proof.
  destruct (prune_returns (size_of obj) obj) as (v & Hv & Hsize & Hshape); [lia|].
  exists v. split; [done|]. split; [done|].
  destruct obj as [| | | |items|fields];
    try (unfold removeEmptyElements in Hv; simpl in Hv; by injection Hv as <-).
  - by destruct (Hshape items eq_refl) as [l' ->].
  - unfold removeEmptyElements in Hv. simpl in Hv.
    destruct (prune_fields _ fields); [|done]. by injection Hv as <-.
Qed.

Lemma prune_fields_fixed self fields :
  (forall kv, kv ∈ fields ->
     is_empty kv.2 = false /\ (is_object kv.2 = true -> self kv.2 = Some kv.2)) ->
  prune_fields self fields = Some fields.
Proof.
  induction fields as [|[k v] fields IH]; intros H; [done|].
  cbn [prune_fields].
  destruct (H (k, v)) as [Hempty Hself]; [by left|]. cbn [snd] in Hempty, Hself.
  rewrite Hempty, IH by (intros kv Hkv; apply H; by right).
  destruct (is_object v); [|done]. by rewrite Hself.
Qed.

Lemma prune_items_fixed self cur : forall ks,
  (forall k, k ∈ ks -> k < length cur) ->
  (forall x, x ∈ cur ->
     is_empty x = false /\ (is_object x = true -> self x = Some x)) ->
  prune_items self ks cur = Some cur.
Proof.
  induction ks as [|k ks IH]; intros Hks H; [done|].
  cbn [prune_items].
  assert (k < length cur) as Hk by (apply Hks; by left).
  destruct (lookup_lt_is_Some_2 cur k Hk) as [v Hv]. rewrite Hv.
  destruct (H v) as [-> Hself]; [by eapply list_elem_of_lookup_2|].
  assert ((if is_object v then v' ← self v; Some (<[k := v']> cur) else Some cur)
          = Some cur) as ->.
  { destruct (is_object v); [|done]. rewrite Hself by done. cbn.
    by rewrite list_insert_id. }
  cbn. destruct (Nat.eqb_spec (length cur) k) as [Heq|_]; [lia|].
  apply IH; [|done]. intros k' Hk'. apply Hks. by right.
Qed.

Lemma prune_fixes_clean fuel : forall v,
  size_of v <= fuel -> clean v = true -> prune fuel v = Some v.
Proof.
  induction fuel as [|fuel IH]; intros v Hsize Hclean.
  - pose proof (size_of_pos v). lia.
  - destruct v as [| | | |items|fields]; try reflexivity.
    + cbn [prune]. cbn [clean size_of] in *.
      rewrite prune_items_fixed; [done| |].
      * intros k Hk. apply elem_of_seq in Hk. lia.
      * intros x Hx. rewrite forallb_forall in Hclean.
        specialize (Hclean x (proj1 (list_elem_of_In _ _) Hx)).
        apply andb_true_iff in Hclean as [Hne Hc].
        split; [by destruct (is_empty x)|]. intros _. apply IH; [|done].
        pose proof (sum_list_with_in x size_of items Hx). lia.
    + cbn [prune]. cbn [clean size_of] in *.
      rewrite prune_fields_fixed; [done|].
      intros kv Hkv. rewrite forallb_forall in Hclean.
      specialize (Hclean kv (proj1 (list_elem_of_In _ _) Hkv)).
      apply andb_true_iff in Hclean as [Hne Hc].
      split; [by destruct (is_empty kv.2)|]. intros _. apply IH; [|done].
      pose proof (sum_list_with_in kv (fun kv => size_of kv.2) fields Hkv). lia.
Qed.

Lemma scalar_clean v : is_object v = false -> clean v = true.
Proof. by destruct v. Qed.

Lemma prune_fields_tight self fields : forall fields',
  tight self -> prune_fields self fields = Some fields' ->
  sum_list_with (fun kv => size_of kv.2) fields'
    <= sum_list_with (fun kv => size_of kv.2) fields
  /\ (sum_list_with (fun kv => size_of kv.2) fields'
       = sum_list_with (fun kv => size_of kv.2) fields ->
      fields' = fields
      /\ forallb (fun kv => negb (is_empty kv.2) && clean kv.2) fields = true).
Proof.
  induction fields as [|[k v] fields IH]; intros fields' Hself H;
    cbn [prune_fields] in H.
  - by injection H as <-.
  - pose proof (size_of_pos v) as Hpos. cbn [sum_list_with forallb snd].
    destruct (is_empty v) eqn:Hempty.
    + destruct (IH _ Hself H) as [Hle _]. split; lia.
    + destruct (if is_object v then self v else Some v) as [v'|] eqn:Hv'; [|done].
      cbn in H. destruct (prune_fields self fields) as [rest'|]; [|done].
      injection H as <-. destruct (IH _ Hself eq_refl) as [Hle Heq].
      assert (size_of v' <= size_of v
              /\ (size_of v' = size_of v -> v' = v /\ clean v = true)) as [Hv Hveq].
      { destruct (is_object v) eqn:Hobj; [by apply Hself|].
        injection Hv' as <-. split; [done|]. intros _. split; [done|].
        by apply scalar_clean. }
      cbn [sum_list_with snd]. split; [lia|]. intros Hsum.
      destruct Hveq as [-> ->]; [lia|]. destruct Heq as [-> ->]; [lia|]. done.
Qed.

Lemma prune_items_tight self ks : forall cur out,
  tight self -> prune_items self ks cur = Some out ->
  sum_list_with size_of out <= sum_list_with size_of cur
  /\ (sum_list_with size_of out = sum_list_with size_of cur ->
      out = cur
      /\ forall k x, k ∈ ks -> cur !! k = Some x ->
           is_empty x = false /\ clean x = true).
Proof.
  induction ks as [|k ks IH]; intros cur out Hself H; cbn [prune_items] in H.
  - injection H as <-. split; [done|]. intros _. split; [done|].
    intros k x Hk. by apply elem_of_nil in Hk.
  - destruct (cur !! k) as [v|] eqn:Hv.
    2: { destruct (IH _ _ Hself H) as [Hle Heq]. split; [done|]. intros Hsum.
         destruct (Heq Hsum) as [-> Hall]. split; [done|].
         intros k' x Hk' Hx. apply elem_of_cons in Hk' as [->|Hk'];
           [congruence | by eapply Hall]. }
    pose proof (sum_delete _ _ _ Hv) as Hdel.
    pose proof (size_of_pos v) as Hpos.
    destruct (is_empty v) eqn:Hempty.
    + cbn in H. destruct (Nat.eqb (length (delete k cur)) k).
      * destruct (self (VArr (delete k cur))) as [[| | | |again|]|] eqn:Hagain;
          try done.
        cbn in H. destruct (Hself _ _ Hagain) as [Hle _]. cbn [size_of] in Hle.
        destruct (IH _ _ Hself H) as [Hle' _]. split; lia.
      * cbn in H. destruct (IH _ _ Hself H) as [Hle' _]. split; lia.
    + assert (exists cur',
                (if is_object v then v' ← self v; Some (<[k := v']> cur) else Some cur)
                = Some cur'
                /\ length cur' = length cur
                /\ sum_list_with size_of cur' <= sum_list_with size_of cur
                /\ (sum_list_with size_of cur' = sum_list_with size_of cur ->
                    cur' = cur /\ clean v = true))
        as (cur' & Hcur' & Hlen & Hsum & Hsame).
      { destruct (is_object v) eqn:Hobj.
        - destruct (self v) as [v'|] eqn:Hv'; [|done].
          destruct (Hself _ _ Hv') as [Hle Heq].
          exists (<[k := v']> cur). cbn. split; [done|].
          split; [apply length_insert|].
          assert (sum_list_with size_of (<[k := v']> cur) + size_of v
                  = sum_list_with size_of cur + size_of v') as Hins.
          { rewrite <- (take_drop_middle _ _ _ Hv) at 2.
            rewrite insert_take_drop by (by eapply lookup_lt_Some).
            rewrite !sum_list_with_app. simpl. lia. }
          split; [lia|]. intros E. destruct Heq as [-> ->]; [lia|].
          by rewrite list_insert_id.
        - exists cur. split; [done|]. split; [done|]. split; [done|].
          intros _. split; [done|]. by apply scalar_clean. }
      rewrite Hcur' in H. cbn in H.
      pose proof (lookup_lt_Some _ _ _ Hv) as Hlt.
      destruct (Nat.eqb_spec (length cur') k) as [E|_]; [lia|]. cbn in H.
      destruct (IH _ _ Hself H) as [Hle Heq]. split; [lia|]. intros E.
      destruct Hsame as [-> Hclean]; [lia|]. destruct Heq as [-> Hall]; [lia|].
      split; [done|]. intros k' x Hk' Hx.
      apply elem_of_cons in Hk' as [->|Hk']; [|by eapply Hall].
      assert (x = v) as -> by congruence. done.
Qed.

Lemma prune_tight fuel : tight (prune fuel).
Proof.
  induction fuel as [|fuel IH]; intros x x' H; [done|].
  destruct x as [| | | |items|fields]; cbn [prune] in H;
    try (by injection H as <-).
  - destruct (prune_items _ _ items) as [out|] eqn:Hout; [|done].
    injection H as <-. destruct (prune_items_tight _ _ _ _ IH Hout) as [Hle Heq].
    cbn [size_of clean]. split; [lia|]. intros E.
    destruct Heq as [-> Hall]; [lia|]. split; [done|].
    apply forallb_forall. intros x Hx.
    apply list_elem_of_In, list_elem_of_lookup in Hx as [k Hk].
    destruct (Hall k x) as [-> ->]; [|done..].
    apply elem_of_seq. apply lookup_lt_Some in Hk. lia.
  - destruct (prune_fields _ fields) as [out|] eqn:Hout; [|done].
    injection H as <-. destruct (prune_fields_tight _ _ _ IH Hout) as [Hle Heq].
    cbn [size_of clean]. split; [lia|]. intros E.
    destruct Heq as [-> Hall]; [lia|]. done.
Qed.

(** X15: The trees the pruner returns unchanged are exactly those in which
    nothing is [null] or the empty string, sequences included: whenever a
    tree holds something empty, at any depth, a run removes at least one
    node. *)
Theorem removeEmptyElements_fixed_iff_clean (obj : value) :
  removeEmptyElements obj = Some obj <-> clean obj = true.
Proof.
  split.
  - intros H. by destruct (prune_tight _ _ _ H) as [_ [_ Hclean]].
  - intros H. by apply prune_fixes_clean.
Qed.

(** X16: On a tree without sequences one run is enough: the result holds
    nothing empty, and a second run returns it unchanged. *)
Theorem removeEmptyElements_idempotent_on_mappings (obj : value) :
  sequence_free obj = true ->
  exists v, removeEmptyElements obj = Some v
    /\ clean v = true /\ removeEmptyElements v = Some v.
Proof.
  intros Hfree.
  destruct (prune_returns (size_of obj) obj) as (v & Hv & _); [lia|].
  exists v. destruct (prune_clean _ _ _ Hfree Hv) as [Hclean _].
  split; [done|]. split; [done|]. by apply prune_fixes_clean.
Qed.

Lemma prune_fields_kept self fields : forall fields',
  prune_fields self fields = Some fields' ->
  fields'.*1 = (List.filter (fun kv => negb (is_empty kv.2)) fields).*1
  /\ forall k x, (k, x) ∈ fields -> is_empty x = false -> is_object x = false ->
       (k, x) ∈ fields'.
Proof.
  induction fields as [|[k v] fields IH]; intros fields' H; cbn [prune_fields] in H.
  - injection H as <-. split; [done|]. intros k x Hin. by apply elem_of_nil in Hin.
  - cbn [List.filter snd]. destruct (is_empty v) eqn:Hempty; cbn [negb].
    + destruct (IH _ H) as [Hkeys Hkept]. split; [done|].
      intros k' x Hin Hx Hobj. apply elem_of_cons in Hin as [[= -> ->]|Hin];
        [congruence | by apply Hkept].
    + destruct (if is_object v then self v else Some v) as [v'|] eqn:Hv'; [|done].
      cbn in H. destruct (prune_fields self fields) as [rest'|]; [|done].
      injection H as <-. destruct (IH _ eq_refl) as [Hkeys Hkept].
      split; [cbn; by rewrite Hkeys|].
      intros k' x Hin Hx Hobj. apply elem_of_cons in Hin as [[= -> ->]|Hin].
      * rewrite Hobj in Hv'. injection Hv' as <-. by left.
      * right. by apply Hkept.
Qed.

(** X17: What the pruner does to the fields of a mapping: the result is a
    mapping whose keys are those of the fields that were not [null] or the
    empty string, in their order, and a field holding a number, a boolean
    or a non-empty string keeps its value. *)
Theorem removeEmptyElements_kept_fields (fields : list (string * value)) :
  exists fields',
    removeEmptyElements (VObj fields) = Some (VObj fields')
    /\ fields'.*1 = (List.filter (fun kv => negb (is_empty kv.2)) fields).*1
    /\ forall k x, (k, x) ∈ fields -> is_empty x = false -> is_object x = false ->
         (k, x) ∈ fields'.
Proof.
  destruct (prune_returns (size_of (VObj fields)) (VObj fields)) as (v & Hv & _); [lia|].
  unfold removeEmptyElements. rewrite Hv. cbn [size_of prune] in Hv.
  destruct (prune_fields _ fields) as [fields'|] eqn:Hf; [|done].
  injection Hv as <-. exists fields'. split; [done|].
  by apply (prune_fields_kept _ _ _ Hf).
Qed.

End PrunerAgain.

Lemma removeEmptyElements_idempotent_on_mappings_witness :
  exists v,
    removeEmptyElements (VObj [("a", VNull); ("b", VObj [("c", VStr "")])]) = Some v
    /\ clean v = true /\ removeEmptyElements v = Some v.
Proof.
  apply (removeEmptyElements_idempotent_on_mappings
           (VObj [("a", VNull); ("b", VObj [("c", VStr "")])])).
  reflexivity.
Defined.

(** ** The browser lookup *)

Section BrowserLookup.

(** X18: [chromePath] answers on three platforms only.  There it returns a
    candidate path that exists, or [null] when none of the platform's
    candidates exists; on every other platform it throws a [TypeError]
    instead of returning [null]. *)
Theorem chromePath_outcome (platform : string) (existsSync : string -> bool) :
  match chromePath platform existsSync with
  | Ok (Some p) =>
      platform ∈ ["win32"; "darwin"; "linux"] /\ existsSync p = true
  | Ok None =>
      platform ∈ ["win32"; "darwin"; "linux"]
      /\ forall paths p, possiblePaths platform = Some paths -> p ∈ paths ->
           existsSync p = false
  | Throw e =>
      e = TypeError /\ platform ∉ ["win32"; "darwin"; "linux"]
  end.
Proof.
  unfold chromePath.
  destruct (possiblePaths platform) as [paths|] eqn:Hpaths.
  - assert (platform ∈ ["win32"; "darwin"; "linux"]) as Hin.
    { unfold possiblePaths in Hpaths.
      destruct (String.eqb_spec platform "win32") as [->|_]; [set_solver|].
      destruct (String.eqb_spec platform "darwin") as [->|_]; [set_solver|].
      destruct (String.eqb_spec platform "linux") as [->|_]; [set_solver|done]. }
    destruct (List.find existsSync paths) as [p|] eqn:Hfind.
    + split; [done|]. by apply find_some in Hfind as [_ ?].
    + split; [done|]. intros paths' p [= <-] Hp.
      apply (find_none _ _ Hfind). by apply list_elem_of_In.
  - split; [done|]. unfold possiblePaths in Hpaths. intros Hin.
    destruct (String.eqb_spec platform "win32") as [->|?]; [done|].
    destruct (String.eqb_spec platform "darwin") as [->|?]; [done|].
    destruct (String.eqb_spec platform "linux") as [->|?]; [done|].
    repeat (apply elem_of_cons in Hin as [->|Hin]; [done|]).
    by apply elem_of_nil in Hin.
Qed.

End BrowserLookup.

(** ** The comparator, once more *)

Section Comparator.

Lemma js_lt_asym p q : js_lt p q = true -> js_lt q p = false.
Proof.
  destruct p as [x|s], q as [y|t]; simpl; try done.
  - intros H. apply Z.ltb_lt in H. apply Z.ltb_ge. lia.
  - unfold String.ltb. rewrite (String.compare_antisym t s).
    by destruct (String.compare s t).
Qed.

(** X19: The comparator is antisymmetric, exceptions included: with its two
    nodes exchanged it returns the opposite number, and it throws exactly
    when it threw before; this holds for every table, inherited names and
    all. *)
Theorem orderApply_antisymmetric (a b : value) (order : gmap string Z)
    (props : list string) :
  orderApply b a order props = (c ← orderApply a b order props; Ok (- c)).
Proof.
  unfold orderApply.
  destruct (sortKey a props) as [ka|ea] eqn:Ha,
           (sortKey b props) as [kb|eb] eqn:Hb; cbn; try done.
  - destruct (js_lt (position_of order ka) (position_of order kb)) eqn:Hab.
    + rewrite (js_lt_asym _ _ Hab). reflexivity.
    + destruct (js_lt (position_of order kb) (position_of order ka)); reflexivity.
  - apply sortKey_throws in Ha, Hb. by subst.
Qed.

End Comparator.
